(** * LaneKeepingSystem: the control loop of the Xycar lane keeping node

    A shallow embedding of [src/LaneKeepingSystem/LaneKeepingSystem.cpp].
    The class is a template over the floating-point type [PREC]
    (instantiated at [float] and [double]); the embedding is a development
    over a type class [Precision] with two instances: IEEE binary64
    ([double], through Rocq's primitive floats) and the exact rationals.
    The collaborators whose code lives in other files (the moving average
    filter, the Stanley controller, the Hough lane detector) are interfaces
    here, instantiated where a scenario needs a concrete one. *)

From Stdlib Require Import ZArith List Bool Lia String.
From Stdlib Require Import QArith Qabs.
From Stdlib Require Import Floats.
Import ListNotations.

Set Implicit Arguments.

Local Open Scope Z_scope.

(* ================================================================= *)
(** ** The integer type int32_t *)

(** The least and the greatest value of [int32_t]. *)
Definition INT32_MIN : Z := -2147483648.
Definition INT32_MAX : Z := 2147483647.

(** The result of an operation on [int32_t] whose mathematical value is
    [z]: [z] itself where it lies between [INT32_MIN] and [INT32_MAX].
    Beyond, the behaviour is undefined in C++; the compiled code keeps the
    low 32 bits, in two's complement, and so does this function. *)
Definition int32_t (z : Z) : Z := (z + 2 ^ 31) mod 2 ^ 32 - 2 ^ 31.

(* ================================================================= *)
(** ** The numeric type PREC *)

(** The operations the source applies to values of type [PREC].
    [prec_to_int] is [static_cast<int32_t>(x)] (truncation toward zero),
    [prec_of_int] is [static_cast<PREC>(n)], [prec_round] is [std::round]
    (nearest integer, halves away from zero). *)
Class Precision (PREC : Type) : Type := {
  prec_add : PREC -> PREC -> PREC;
  prec_sub : PREC -> PREC -> PREC;
  prec_div : PREC -> PREC -> PREC;
  prec_abs : PREC -> PREC;
  prec_lt : PREC -> PREC -> bool;
  prec_le : PREC -> PREC -> bool;
  prec_of_int : Z -> PREC;
  prec_to_int : PREC -> Z;
  prec_round : PREC -> PREC
}.

Section StdAlgorithm.
Context {PREC : Type} {ops : Precision PREC}.

(** [std::max(a, b)] is [(a < b) ? b : a]. *)
Definition std_max (a b : PREC) : PREC := if prec_lt a b then b else a.

(** [std::min(a, b)] is [(b < a) ? b : a]. *)
Definition std_min (a b : PREC) : PREC := if prec_lt b a then b else a.

(** [a > b] on [PREC]. *)
Definition prec_gt (a b : PREC) : bool := prec_lt b a.

(** [lo <= x && x <= hi]. *)
Definition within (lo hi x : PREC) : bool := prec_le lo x && prec_le x hi.

(** The value [x] lies between [INT32_MIN] and [INT32_MAX], so that its
    conversion to [int32_t] is defined (a NaN does not). Both bounds are
    values of [double]. *)
Definition in_int32 (x : PREC) : bool :=
  within (prec_of_int INT32_MIN) (prec_of_int INT32_MAX) x.
End StdAlgorithm.

(** What the comparisons of [PREC] satisfy at every instance of the
    template, IEEE floats with their NaN included: [a <= a] fails exactly
    for a NaN, and two values that are not NaN are comparable. *)
Class OrderLaws (PREC : Type) {ops : Precision PREC} : Prop := {
  prec_lt_irrefl : forall a : PREC, prec_lt a a = false;
  prec_lt_le : forall a b : PREC, prec_lt a b = true -> prec_le a b = true;
  prec_le_nlt : forall a b : PREC, prec_le a b = true -> prec_lt b a = false;
  prec_le_left : forall a b : PREC, prec_le a b = true -> prec_le a a = true;
  prec_le_right : forall a b : PREC, prec_le a b = true -> prec_le b b = true;
  prec_le_trans : forall a b c : PREC,
      prec_le a b = true -> prec_le b c = true -> prec_le a c = true;
  prec_nlt_le : forall a b : PREC,
      prec_le a a = true -> prec_le b b = true ->
      prec_lt a b = false -> prec_le b a = true
}.

Arguments OrderLaws PREC {ops}.

(* ----------------------------------------------------------------- *)
(** *** PREC = double *)

Module Double.

(** Where a float that is not a NaN stands on the line: its class
    (infinite, finite or zero, by sign), then exponent and mantissa. *)
Definition key (x : spec_float) : Z * Z * Z :=
  match x with
  | S754_zero _ => (0, 0, 0)
  | S754_infinity s => (if s then -2 else 2, 0, 0)
  | S754_nan => (0, 0, 0)
  | S754_finite s m e => if s then (-1, - e, - Z.pos m) else (1, e, Z.pos m)
  end.

Definition lex_le (a b : Z * Z * Z) : Prop :=
  let '(a1, a2, a3) := a in
  let '(b1, b2, b3) := b in
  a1 < b1 \/ (a1 = b1 /\ (a2 < b2 \/ (a2 = b2 /\ a3 <= b3))).

Definition is_nan (x : spec_float) : bool :=
  match x with S754_nan => true | _ => false end.

(** The integer value of a finite float, truncated toward zero. *)
Definition SF_trunc (f : spec_float) : Z :=
  match f with
  | S754_finite s m e =>
      let n := if 0 <=? e then Z.shiftl (Z.pos m) e
               else Z.shiftr (Z.pos m) (- e) in
      if s then - n else n
  | _ => 0
  end.

(** The magnitude of a finite float with a fractional part, rounded to
    the nearest integer, halves upward. *)
Definition SF_round_mag (m : positive) (e : Z) : Z :=
  Z.shiftr (Z.pos m + Z.shiftl 1 (- e - 1)) (- e).

Definition of_int (n : Z) : float :=
  if n <? 0 then PrimFloat.opp (PrimFloat.of_uint63 (Uint63.of_Z (- n)))
  else PrimFloat.of_uint63 (Uint63.of_Z n).

(** [static_cast<int32_t>(x)]; undefined in C++ for NaN, infinities and
    values outside the range of [int32_t], where this model returns 0 or
    the unbounded truncation. *)
Definition to_int (x : float) : Z := SF_trunc (Prim2SF x).

(** [std::round(x)]. *)
Definition round (x : float) : float :=
  match Prim2SF x with
  | S754_finite s m e =>
      if 0 <=? e then x
      else let r := of_int (SF_round_mag m e) in
           if s then PrimFloat.opp r else r
  | _ => x
  end.

#[global] Instance prec_double : Precision float := {
  prec_add := PrimFloat.add;
  prec_sub := PrimFloat.sub;
  prec_div := PrimFloat.div;
  prec_abs := PrimFloat.abs;
  prec_lt := PrimFloat.ltb;
  prec_le := PrimFloat.leb;
  prec_of_int := of_int;
  prec_to_int := to_int;
  prec_round := round
}.

End Double.

(* ----------------------------------------------------------------- *)
(** *** PREC = exact rationals *)

Module Exact.

Definition lt (a b : Q) : bool :=
  match Qcompare a b with Lt => true | _ => false end.

Definition to_int (q : Q) : Z := Z.quot (Qnum q) (Z.pos (Qden q)).

Definition round (q : Q) : Q :=
  let n := Qnum q in
  let d := Z.pos (Qden q) in
  inject_Z (Z.sgn n * ((2 * Z.abs n + d) / (2 * d))).

#[global] Instance prec_exact : Precision Q := {
  prec_add := Qplus;
  prec_sub := Qminus;
  prec_div := Qdiv;
  prec_abs := Qabs;
  prec_lt := lt;
  prec_le := Qle_bool;
  prec_of_int := inject_Z;
  prec_to_int := to_int;
  prec_round := round
}.

End Exact.


(* ================================================================= *)
(** ** Messages, frames and configuration *)

(** [sensor_msgs::Image]: the fields [imageCallback] reads. *)
Record Image : Type := {
  height : Z;
  width : Z;
  step : Z;
  data : list Z
}.

(** [cv::Mat] of type [CV_8UC3]: the dimensions and the pixels, row by
    row, each a triple of channel values. *)
Record Mat : Type := {
  rows : Z;
  cols : Z;
  pixels : list (Z * Z * Z)
}.

(** A default-constructed [cv::Mat]. *)
Definition Mat_new : Mat := {| rows := 0; cols := 0; pixels := [] |}.

(** [cv::Mat::empty()]: no element. *)
Definition Mat_empty (m : Mat) : bool := rows m * cols m =? 0.

(** The first [n] pixels of a row of bytes, each with its first and third
    channel exchanged ([cv::COLOR_RGB2BGR]). *)
Fixpoint swapRow (n : nat) (bytes : list Z) : list (Z * Z * Z) :=
  match n, bytes with
  | S n', r :: g :: b :: rest => (b, g, r) :: swapRow n' rest
  | _, _ => []
  end.

(** [h] rows of [w] pixels out of a buffer whose rows are [stride] bytes
    apart. *)
Fixpoint swapRows (h : nat) (w stride : nat) (bytes : list Z)
  : list (Z * Z * Z) :=
  match h with
  | O => []
  | S h' => swapRow w bytes ++ swapRows h' w stride (skipn stride bytes)
  end.

(** [cv::cvtColor(cv::Mat(height, width, CV_8UC3, data, step), dst,
    cv::COLOR_RGB2BGR)]. *)
Definition cvtColor_RGB2BGR (message : Image) : Mat :=
  {| rows := height message;
     cols := width message;
     pixels := swapRows (Z.to_nat (height message)) (Z.to_nat (width message))
                 (Z.to_nat (step message)) (data message) |}.

(** [xycar_msgs::xycar_motor]: two [int32] fields. *)
Record xycar_motor : Type := {
  angle : Z;
  speed : Z
}.

(** The keys of the YAML configuration that the constructor and
    [setParams] read. *)
Record Config (PREC : Type) : Type := {
  SPEED_PID : PREC * PREC * PREC;
  PID : PREC * PREC * PREC;
  SAMPLE_SIZE : Z;
  PUB_NAME : string;
  SUB_NAME : string;
  QUEUE_SIZE : Z;
  START_SPEED : PREC;
  MAX_SPEED : PREC;
  MIN_SPEED : PREC;
  SPEED_CONTROL_THRESHOLD : PREC;
  ACCELERATION_STEP : PREC;
  DECELERATION_STEP : PREC;
  K_GAIN : PREC;
  LOOK_AHREAD_DISTANCE : PREC;
  DEBUG : bool
}.

(* ================================================================= *)
(** ** Collaborators *)

(** [PIDController<PREC>] as the constructor leaves it; [run] never calls
    it. *)
Record PIDController (PREC : Type) : Type := {
  mProportionalGain : PREC;
  mIntegralGain : PREC;
  mDifferentialGain : PREC
}.

(** The interface of [MovingAverageFilter<PREC>] that [run] uses. *)
Class MovingAverageFilter (PREC F : Type) : Type := {
  filter_new : Z -> F;
  addSample : Z -> F -> F;
  filter_getResult : F -> PREC
}.

(** The interface of [StanleyController<PREC>] that [run] uses. *)
Class StanleyController (PREC S : Type) : Type := {
  stanley_new : PREC -> PREC -> S;
  calculateSteeringAngle : Z -> PREC -> PREC -> S -> S;
  stanley_getResult : S -> PREC
}.

(** The interface of [HoughTransformLaneDetector<PREC>] that [run] uses.
    The lane positions are pixel columns ([int32_t]). *)
Class HoughTransformLaneDetector (PREC D : Type) : Type := {
  detector_new : Config PREC -> D;
  getLanePosition : Mat -> D -> (Z * Z) * D;
  drawRectangles : Z -> Z -> Z -> D -> D
}.

(* ================================================================= *)
(** ** The class LaneKeepingSystem<PREC> *)

Section Controller.
Context {PREC : Type} {ops : Precision PREC}.
Context {F S D : Type}.
Context {filter : MovingAverageFilter PREC F}.
Context {stanley : StanleyController PREC S}.
Context {detector : HoughTransformLaneDetector PREC D}.

(** [kXycarSteeringAangleLimit], a constant of the class declared in the
    header. *)
Variable kXycarSteeringAangleLimit : Z.

(** The data members (the ROS node handle, publisher and subscriber
    apart). *)
Record LaneKeepingSystem : Type := {
  mSpeedPID : PIDController PREC;
  mPID : PIDController PREC;
  mMovingAverage : F;
  mHoughTransformLaneDetector : D;
  mStanley : S;
  mPublishingTopicName : string;
  mSubscribedTopicName : string;
  mQueueSize : Z;
  mXycarSpeed : PREC;
  mXycarMaxSpeed : PREC;
  mXycarMinSpeed : PREC;
  mXycarSpeedControlThreshold : PREC;
  mAccelerationStep : PREC;
  mDecelerationStep : PREC;
  mStanleyGain : PREC;
  mStanleyLookAheadDistance : PREC;
  mDebugging : bool;
  mFrame : Mat
}.

(** Assignments to the members that [run] and its callees write. *)
Definition set_mXycarSpeed (v : PREC) (s : LaneKeepingSystem)
  : LaneKeepingSystem :=
  {| mSpeedPID := mSpeedPID s; mPID := mPID s;
     mMovingAverage := mMovingAverage s;
     mHoughTransformLaneDetector := mHoughTransformLaneDetector s;
     mStanley := mStanley s;
     mPublishingTopicName := mPublishingTopicName s;
     mSubscribedTopicName := mSubscribedTopicName s;
     mQueueSize := mQueueSize s;
     mXycarSpeed := v;
     mXycarMaxSpeed := mXycarMaxSpeed s;
     mXycarMinSpeed := mXycarMinSpeed s;
     mXycarSpeedControlThreshold := mXycarSpeedControlThreshold s;
     mAccelerationStep := mAccelerationStep s;
     mDecelerationStep := mDecelerationStep s;
     mStanleyGain := mStanleyGain s;
     mStanleyLookAheadDistance := mStanleyLookAheadDistance s;
     mDebugging := mDebugging s;
     mFrame := mFrame s |}.

Definition set_mFrame (v : Mat) (s : LaneKeepingSystem)
  : LaneKeepingSystem :=
  {| mSpeedPID := mSpeedPID s; mPID := mPID s;
     mMovingAverage := mMovingAverage s;
     mHoughTransformLaneDetector := mHoughTransformLaneDetector s;
     mStanley := mStanley s;
     mPublishingTopicName := mPublishingTopicName s;
     mSubscribedTopicName := mSubscribedTopicName s;
     mQueueSize := mQueueSize s;
     mXycarSpeed := mXycarSpeed s;
     mXycarMaxSpeed := mXycarMaxSpeed s;
     mXycarMinSpeed := mXycarMinSpeed s;
     mXycarSpeedControlThreshold := mXycarSpeedControlThreshold s;
     mAccelerationStep := mAccelerationStep s;
     mDecelerationStep := mDecelerationStep s;
     mStanleyGain := mStanleyGain s;
     mStanleyLookAheadDistance := mStanleyLookAheadDistance s;
     mDebugging := mDebugging s;
     mFrame := v |}.

Definition set_mMovingAverage (v : F) (s : LaneKeepingSystem)
  : LaneKeepingSystem :=
  {| mSpeedPID := mSpeedPID s; mPID := mPID s;
     mMovingAverage := v;
     mHoughTransformLaneDetector := mHoughTransformLaneDetector s;
     mStanley := mStanley s;
     mPublishingTopicName := mPublishingTopicName s;
     mSubscribedTopicName := mSubscribedTopicName s;
     mQueueSize := mQueueSize s;
     mXycarSpeed := mXycarSpeed s;
     mXycarMaxSpeed := mXycarMaxSpeed s;
     mXycarMinSpeed := mXycarMinSpeed s;
     mXycarSpeedControlThreshold := mXycarSpeedControlThreshold s;
     mAccelerationStep := mAccelerationStep s;
     mDecelerationStep := mDecelerationStep s;
     mStanleyGain := mStanleyGain s;
     mStanleyLookAheadDistance := mStanleyLookAheadDistance s;
     mDebugging := mDebugging s;
     mFrame := mFrame s |}.

Definition set_mHoughTransformLaneDetector (v : D) (s : LaneKeepingSystem)
  : LaneKeepingSystem :=
  {| mSpeedPID := mSpeedPID s; mPID := mPID s;
     mMovingAverage := mMovingAverage s;
     mHoughTransformLaneDetector := v;
     mStanley := mStanley s;
     mPublishingTopicName := mPublishingTopicName s;
     mSubscribedTopicName := mSubscribedTopicName s;
     mQueueSize := mQueueSize s;
     mXycarSpeed := mXycarSpeed s;
     mXycarMaxSpeed := mXycarMaxSpeed s;
     mXycarMinSpeed := mXycarMinSpeed s;
     mXycarSpeedControlThreshold := mXycarSpeedControlThreshold s;
     mAccelerationStep := mAccelerationStep s;
     mDecelerationStep := mDecelerationStep s;
     mStanleyGain := mStanleyGain s;
     mStanleyLookAheadDistance := mStanleyLookAheadDistance s;
     mDebugging := mDebugging s;
     mFrame := mFrame s |}.

Definition set_mStanley (v : S) (s : LaneKeepingSystem)
  : LaneKeepingSystem :=
  {| mSpeedPID := mSpeedPID s; mPID := mPID s;
     mMovingAverage := mMovingAverage s;
     mHoughTransformLaneDetector := mHoughTransformLaneDetector s;
     mStanley := v;
     mPublishingTopicName := mPublishingTopicName s;
     mSubscribedTopicName := mSubscribedTopicName s;
     mQueueSize := mQueueSize s;
     mXycarSpeed := mXycarSpeed s;
     mXycarMaxSpeed := mXycarMaxSpeed s;
     mXycarMinSpeed := mXycarMinSpeed s;
     mXycarSpeedControlThreshold := mXycarSpeedControlThreshold s;
     mAccelerationStep := mAccelerationStep s;
     mDecelerationStep := mDecelerationStep s;
     mStanleyGain := mStanleyGain s;
     mStanleyLookAheadDistance := mStanleyLookAheadDistance s;
     mDebugging := mDebugging s;
     mFrame := mFrame s |}.

(** [PIDController(p, i, d)]. *)
Definition new_PIDController (g : PREC * PREC * PREC) : PIDController PREC :=
  {| mProportionalGain := fst (fst g);
     mIntegralGain := snd (fst g);
     mDifferentialGain := snd g |}.

(** [setParams]: the members read from the configuration. *)
Definition setParams (config : Config PREC) (s : LaneKeepingSystem)
  : LaneKeepingSystem :=
  {| mSpeedPID := mSpeedPID s; mPID := mPID s;
     mMovingAverage := mMovingAverage s;
     mHoughTransformLaneDetector := mHoughTransformLaneDetector s;
     mStanley := mStanley s;
     mPublishingTopicName := PUB_NAME config;
     mSubscribedTopicName := SUB_NAME config;
     mQueueSize := QUEUE_SIZE config;
     mXycarSpeed := START_SPEED config;
     mXycarMaxSpeed := MAX_SPEED config;
     mXycarMinSpeed := MIN_SPEED config;
     mXycarSpeedControlThreshold := SPEED_CONTROL_THRESHOLD config;
     mAccelerationStep := ACCELERATION_STEP config;
     mDecelerationStep := DECELERATION_STEP config;
     mStanleyGain := K_GAIN config;
     mStanleyLookAheadDistance := LOOK_AHREAD_DISTANCE config;
     mDebugging := DEBUG config;
     mFrame := mFrame s |}.

(** The constructor: the two PID controllers, the filter and the detector
    are made from the configuration, [setParams] runs, and the Stanley
    controller is made from the two gains [setParams] has stored. Until
    [setParams] runs the members it assigns hold no value that is read;
    here they hold zero, the empty string and [false], and the Stanley
    controller, a null pointer until the last line, one made from zeros. *)
Definition LaneKeepingSystem_new (config : Config PREC) : LaneKeepingSystem :=
  let built :=
    {| mSpeedPID := new_PIDController (SPEED_PID config);
       mPID := new_PIDController (PID config);
       mMovingAverage := filter_new (SAMPLE_SIZE config);
       mHoughTransformLaneDetector := detector_new config;
       mStanley := stanley_new (prec_of_int 0) (prec_of_int 0);
       mPublishingTopicName := EmptyString;
       mSubscribedTopicName := EmptyString;
       mQueueSize := 0;
       mXycarSpeed := prec_of_int 0;
       mXycarMaxSpeed := prec_of_int 0;
       mXycarMinSpeed := prec_of_int 0;
       mXycarSpeedControlThreshold := prec_of_int 0;
       mAccelerationStep := prec_of_int 0;
       mDecelerationStep := prec_of_int 0;
       mStanleyGain := prec_of_int 0;
       mStanleyLookAheadDistance := prec_of_int 0;
       mDebugging := false;
       mFrame := Mat_new |} in
  let configured := setParams config built in
  set_mStanley
    (stanley_new (mStanleyGain configured)
       (mStanleyLookAheadDistance configured))
    configured.

(** [imageCallback]: the converted image replaces [mFrame]. *)
Definition imageCallback (message : Image) (s : LaneKeepingSystem)
  : LaneKeepingSystem :=
  set_mFrame (cvtColor_RGB2BGR message) s.

(** [ros::spinOnce()]: the callback runs on every message that is
    waiting, oldest first. *)
Definition spinOnce (queue : list Image) (s : LaneKeepingSystem)
  : LaneKeepingSystem :=
  fold_left (fun s' message => imageCallback message s') queue s.

(** [speedControl]. *)
Definition speedControl (steeringAngle : PREC) (s : LaneKeepingSystem)
  : LaneKeepingSystem :=
  if prec_gt (prec_abs steeringAngle) (mXycarSpeedControlThreshold s) then
    let s1 := set_mXycarSpeed
                (prec_sub (mXycarSpeed s) (mDecelerationStep s)) s in
    set_mXycarSpeed (std_max (mXycarSpeed s1) (mXycarMinSpeed s1)) s1
  else
    let s1 := set_mXycarSpeed
                (prec_add (mXycarSpeed s) (mAccelerationStep s)) s in
    set_mXycarSpeed (std_min (mXycarSpeed s1) (mXycarMaxSpeed s1)) s1.

(** [drive]: the message built from the steering angle and the speed
    member, handed to the publisher (the line it prints to the standard
    output apart). *)
Definition drive (steeringAngle : PREC) (s : LaneKeepingSystem)
  : LaneKeepingSystem * list xycar_motor :=
  let motorMessage :=
    {| angle := prec_to_int (prec_round steeringAngle);
       speed := prec_to_int (prec_round (mXycarSpeed s)) |} in
  (s, [motorMessage]).

(** The expressions of the body of [run], by the line they stand on. *)

(** Line 80, the argument of [addSample]: the sum and the division are
    those of [int32_t], the division toward zero. *)
Definition lanePositionMidpoint (leftPosisionX rightPositionX : Z) : Z :=
  Z.quot (int32_t (leftPosisionX + rightPositionX)) 2.

(** Line 81. *)
Definition estimatedPositionX (s : LaneKeepingSystem) : Z :=
  prec_to_int (filter_getResult (mMovingAverage s)).

(** Line 82, as long as neither the difference nor the sum leaves the
    range of [int32_t]. *)
Definition errorFromMid (s : LaneKeepingSystem) : Z :=
  estimatedPositionX s - Z.quot (cols (mFrame s)) 2 + 6.

(** Line 86. *)
Definition steeringAngle (stanleyResult : PREC) : PREC :=
  std_max (prec_of_int (- kXycarSteeringAangleLimit))
    (std_min stanleyResult (prec_of_int kXycarSteeringAangleLimit)).

(** Lines 77 to 82: the detector and the filter have run; the lane
    positions are returned for the debug drawing. *)
Definition perceive (s : LaneKeepingSystem) : (Z * Z) * LaneKeepingSystem :=
  let '((leftPosisionX, rightPositionX), d) :=
    getLanePosition (mFrame s) (mHoughTransformLaneDetector s) in
  let s1 := set_mHoughTransformLaneDetector d s in
  ((leftPosisionX, rightPositionX),
   set_mMovingAverage
     (addSample (lanePositionMidpoint leftPosisionX rightPositionX)
        (mMovingAverage s1)) s1).

(** Lines 84 and 85: the Stanley controller has run. *)
Definition steer (s : LaneKeepingSystem) : LaneKeepingSystem :=
  set_mStanley
    (calculateSteeringAngle (errorFromMid s) (prec_of_int 0) (mXycarSpeed s)
       (mStanley s)) s.

(** Lines 91 to 97: the debug drawing (the window apart). *)
Definition debug (lanes : Z * Z) (position : Z) (s : LaneKeepingSystem)
  : LaneKeepingSystem :=
  if mDebugging s then
    set_mHoughTransformLaneDetector
      (drawRectangles (fst lanes) (snd lanes) position
         (mHoughTransformLaneDetector s)) s
  else s.

(** One turn of the loop of [run], given the messages that are waiting
    when [ros::spinOnce()] is called: the members afterwards and the
    messages published. *)
Definition run_body (queue : list Image) (s : LaneKeepingSystem)
  : LaneKeepingSystem * list xycar_motor :=
  let s0 := spinOnce queue s in
  if Mat_empty (mFrame s0) then (s0, [])
  else
    let '(lanes, s1) := perceive s0 in
    let position := estimatedPositionX s1 in
    let s2 := steer s1 in
    let steering := steeringAngle (stanley_getResult (mStanley s2)) in
    let s3 := speedControl steering s2 in
    let '(s4, published) := drive steering s3 in
    (debug lanes position s4, published).

(** [run]: the loop turns once for each element of [queues], the
    messages waiting at that turn, as long as [ros::ok()] holds. *)
Fixpoint run (queues : list (list Image)) (s : LaneKeepingSystem)
  : LaneKeepingSystem * list xycar_motor :=
  match queues with
  | [] => (s, [])
  | queue :: rest =>
      let '(s1, out1) := run_body queue s in
      let '(s2, out2) := run rest s1 in
      (s2, out1 ++ out2)
  end.

End Controller.

(* ================================================================= *)
(** ** The moving average filter *)

Module SmoothingFilter.

(** Modelled from the spec: the source of [MovingAverageFilter<PREC>] is
    not among the files of this development. The spec (4.1, 3) gives it
    as a bounded history of capacity N, the sample size: [addSample]
    appends, evicting the oldest entry if at capacity; [getResult] is the
    mean of the samples held. Before any sample the spec leaves the
    result open; here it is what [PREC] gives for 0 / 0. *)
Record t : Type := {
  mSampleSize : Z;
  mSamples : list Z
}.

Definition new (sampleSize : Z) : t :=
  {| mSampleSize := sampleSize; mSamples := [] |}.

Definition add (newSample : Z) (f : t) : t :=
  let kept := if mSampleSize f <=? Z.of_nat (List.length (mSamples f))
              then tl (mSamples f) else mSamples f in
  {| mSampleSize := mSampleSize f; mSamples := kept ++ [newSample] |}.

Definition sum (l : list Z) : Z := fold_left Z.add l 0.

Definition result {PREC : Type} {ops : Precision PREC} (f : t) : PREC :=
  prec_div (prec_of_int (sum (mSamples f)))
           (prec_of_int (Z.of_nat (List.length (mSamples f)))).

#[global] Instance filter {PREC : Type} {ops : Precision PREC}
  : MovingAverageFilter PREC t := {
  filter_new := new;
  addSample := add;
  filter_getResult := result
}.

End SmoothingFilter.

(* ================================================================= *)
(** ** Stand-ins for the collaborators of a scenario *)

Module Scenario.

(** A steering law that returns the result it was made with, and keeps
    the cross-track error, heading error and speed of its last call. *)
Record Law (PREC : Type) : Type := {
  lastCall : option (Z * PREC * PREC);
  lawResult : PREC
}.

#[global] Instance law {PREC : Type} {ops : Precision PREC}
  : StanleyController PREC (Law PREC) := {
  stanley_new := fun _ _ => {| lastCall := None; lawResult := prec_of_int 0 |};
  calculateSteeringAngle := fun e h v s =>
    {| lastCall := Some (e, h, v); lawResult := lawResult s |};
  stanley_getResult := fun s => lawResult s
}.

(** A detector that reports the lane positions it was made with. *)
Record Lanes : Type := {
  leftX : Z;
  rightX : Z
}.

#[global] Instance lanes {PREC : Type} : HoughTransformLaneDetector PREC Lanes := {
  detector_new := fun _ => {| leftX := 0; rightX := 0 |};
  getLanePosition := fun _ d => ((leftX d, rightX d), d);
  drawRectangles := fun _ _ _ d => d
}.

(** A frame of the given size, as [imageCallback] stores it. *)
Definition frame (w h : Z) : Mat :=
  cvtColor_RGB2BGR {| height := h; width := w; step := 3 * w; data := [] |}.

(** The controller with the given members. *)
Definition car {PREC : Type} {ops : Precision PREC}
    (history : SmoothingFilter.t) (l r : Z) (raw : PREC)
    (speed0 maxSpeed minSpeed threshold accStep decStep : PREC)
    (image : Mat)
  : @LaneKeepingSystem PREC SmoothingFilter.t (Law PREC) Lanes :=
  {| mSpeedPID := new_PIDController (prec_of_int 0, prec_of_int 0, prec_of_int 0);
     mPID := new_PIDController (prec_of_int 0, prec_of_int 0, prec_of_int 0);
     mMovingAverage := history;
     mHoughTransformLaneDetector := {| leftX := l; rightX := r |};
     mStanley := {| lastCall := None; lawResult := raw |};
     mPublishingTopicName := "xycar_motor";
     mSubscribedTopicName := "/usb_cam/image_raw/";
     mQueueSize := 1;
     mXycarSpeed := speed0;
     mXycarMaxSpeed := maxSpeed;
     mXycarMinSpeed := minSpeed;
     mXycarSpeedControlThreshold := threshold;
     mAccelerationStep := accStep;
     mDecelerationStep := decStep;
     mStanleyGain := prec_of_int 0;
     mStanleyLookAheadDistance := prec_of_int 0;
     mDebugging := false;
     mFrame := image |}.

(** A configuration with the given speed parameters. *)
Definition config {PREC : Type} {ops : Precision PREC}
    (start maxSpeed minSpeed threshold accStep decStep : PREC)
  : Config PREC :=
  {| SPEED_PID := (prec_of_int 0, prec_of_int 0, prec_of_int 0);
     PID := (prec_of_int 0, prec_of_int 0, prec_of_int 0);
     SAMPLE_SIZE := 10;
     PUB_NAME := "xycar_motor";
     SUB_NAME := "/usb_cam/image_raw/";
     QUEUE_SIZE := 1;
     START_SPEED := start;
     MAX_SPEED := maxSpeed;
     MIN_SPEED := minSpeed;
     SPEED_CONTROL_THRESHOLD := threshold;
     ACCELERATION_STEP := accStep;
     DECELERATION_STEP := decStep;
     K_GAIN := prec_of_int 1;
     LOOK_AHREAD_DISTANCE := prec_of_int 1;
     DEBUG := false |}.

End Scenario.

(* ================================================================= *)
(** ** What the specification says, in its own words *)

Section Specification.
Context {PREC : Type} {ops : Precision PREC}.
Context {F S D : Type}.

Local Abbreviation LKS := (@LaneKeepingSystem PREC F S D).

(** The speed parameters of the controller: the members [speedControl]
    reads and does not write. *)
Definition sameSpeedParams (s s' : LKS) : Prop :=
  mXycarMaxSpeed s' = mXycarMaxSpeed s /\
  mXycarMinSpeed s' = mXycarMinSpeed s /\
  mXycarSpeedControlThreshold s' = mXycarSpeedControlThreshold s /\
  mAccelerationStep s' = mAccelerationStep s /\
  mDecelerationStep s' = mDecelerationStep s.

(** The update of the speed controller (spec, 4.3): decelerate above
    the threshold, accelerate otherwise. *)
Definition nextSpeed (steeringAngle : PREC) (s : LKS) : PREC :=
  if prec_gt (prec_abs steeringAngle) (mXycarSpeedControlThreshold s)
  then std_max (prec_sub (mXycarSpeed s) (mDecelerationStep s))
         (mXycarMinSpeed s)
  else std_min (prec_add (mXycarSpeed s) (mAccelerationStep s))
         (mXycarMaxSpeed s).

(** The speed member after a call of [speedControl] for each steering
    angle of a list, in order. *)
Definition speedControls (angles : list PREC) (s : LKS) : LKS :=
  fold_left (fun s' a => speedControl a s') angles s.

(** The speed is within the configured bounds, and the parameters are the
    configured ones. *)
Definition speedInvariant (config : Config PREC) (s : LKS) : Prop :=
  mXycarMaxSpeed s = MAX_SPEED config /\
  mXycarMinSpeed s = MIN_SPEED config /\
  mAccelerationStep s = ACCELERATION_STEP config /\
  mDecelerationStep s = DECELERATION_STEP config /\
  within (MIN_SPEED config) (MAX_SPEED config) (mXycarSpeed s) = true.

End Specification.

(* ================================================================= *)
(** * Properties *)

(** ** The order laws at the two instances *)

Module ExactFacts.

Lemma lt_true (a b : Q) : Exact.lt a b = true <-> (a < b)%Q.
Proof.
  unfold Exact.lt. rewrite Qlt_alt.
  destruct (a ?= b)%Q; split; intro H; congruence.
Qed.

Lemma lt_false (a b : Q) : Exact.lt a b = false <-> (b <= a)%Q.
Proof.
  split; intro H.
  - apply Qnot_lt_le. intro L. apply lt_true in L. congruence.
  - destruct (Exact.lt a b) eqn:E; [|reflexivity].
    apply lt_true in E. exfalso. exact (Qle_not_lt _ _ H E).
Qed.

#[global] Instance Q_order_laws : OrderLaws Q.
Proof.
  constructor; cbn; intros.
  - apply lt_false, Qle_refl.
  - apply Qle_bool_iff, Qlt_le_weak, lt_true; assumption.
  - apply lt_false, Qle_bool_iff; assumption.
  - apply Qle_bool_iff, Qle_refl.
  - apply Qle_bool_iff, Qle_refl.
  - apply Qle_bool_iff. apply Qle_bool_iff in H, H0.
    exact (Qle_trans _ _ _ H H0).
  - apply Qle_bool_iff, lt_false; assumption.
Qed.

End ExactFacts.

Module DoubleFacts.

(** The comparison of the IEEE specification, read from the other
    side. *)
Lemma SFcompare_antisym (x y : spec_float) :
  SFcompare y x = option_map CompOpp (SFcompare x y).
Proof.
  destruct x as [sx|sx| |sx mx ex], y as [sy|sy| |sy my ey]; cbn;
    try reflexivity;
    try (destruct sx; reflexivity);
    try (destruct sy; reflexivity);
    try (destruct sx, sy; reflexivity).
  rewrite (Z.compare_antisym ex ey).
  change (PosDef.Pos.compare_cont Eq my mx) with (Pos.compare my mx).
  change (PosDef.Pos.compare_cont Eq mx my) with (Pos.compare mx my).
  rewrite (Pos.compare_antisym mx my).
  destruct sx, sy; try reflexivity;
    destruct (ex ?= ey); cbn; try reflexivity;
    destruct (mx ?= my)%positive; reflexivity.
Qed.

Lemma SFcompare_refl (x : spec_float) :
  SFcompare x x = Some Eq \/ SFcompare x x = None.
Proof.
  destruct x as [s|s| |s m e]; cbn; auto.
  - left. destruct s; reflexivity.
  - left. rewrite Z.compare_refl.
    change (PosDef.Pos.compare_cont Eq m m) with (Pos.compare m m).
    rewrite Pos.compare_refl. destruct s; reflexivity.
Qed.

Lemma SFleb_self (x y : spec_float) :
  SFleb x y = true -> SFleb x x = true /\ SFleb y y = true.
Proof.
  unfold SFleb. intro H.
  destruct (SFcompare_refl x) as [-> | Ex], (SFcompare_refl y) as [-> | Ey];
    auto.
  - destruct x, y; cbn in *; try discriminate; auto.
  - destruct x, y; cbn in *; try discriminate; auto.
  - destruct x, y; cbn in *; try discriminate; auto.
Qed.

Lemma SFcompare_none (x y : spec_float) :
  SFcompare x y = None -> SFcompare x x = None \/ SFcompare y y = None.
Proof.
  destruct x, y; cbn; intro H; try discriminate; auto.
Qed.

Ltac solve_key :=
  cbn;
  repeat match goal with |- context [if ?b then _ else _] => destruct b end;
  cbn;
  (split;
   [ intros H; try discriminate H; repeat split; try reflexivity; lia
   | intros (A & B & C); try discriminate; try reflexivity; lia ]).

Lemma SFleb_key (x y : spec_float) :
  SFleb x y = true <->
  Double.is_nan x = false /\ Double.is_nan y = false /\
  Double.lex_le (Double.key x) (Double.key y).
Proof.
  unfold SFleb.
  destruct x as [sx|sx| |sx mx ex], y as [sy|sy| |sy my ey];
    try solve [solve_key].
  cbn. change (PosDef.Pos.compare_cont Eq mx my) with (Pos.compare mx my).
  destruct sx, sy; try solve [solve_key];
    destruct (Z.compare_spec ex ey); cbn;
    try destruct (Pos.compare_spec mx my); cbn;
    (split;
     [ intros H'; try discriminate H'; repeat split; lia
     | intros (A & B & C); try reflexivity; lia ]).
Qed.

Lemma SFleb_trans (x y z : spec_float) :
  SFleb x y = true -> SFleb y z = true -> SFleb x z = true.
Proof.
  rewrite !SFleb_key. intros (A & B & C) (A' & B' & C').
  repeat split; auto.
  destruct (Double.key x) as [[? ?] ?], (Double.key y) as [[? ?] ?],
    (Double.key z) as [[? ?] ?].
  cbn in *. lia.
Qed.

#[global] Instance double_order_laws : OrderLaws float.
Proof.
  constructor; cbn; intros a; [|intros b ..];
    rewrite ?ltb_spec, ?leb_spec; unfold SFltb, SFleb.
  - destruct (SFcompare_refl (Prim2SF a)) as [-> | ->]; reflexivity.
  - destruct (SFcompare (Prim2SF a) (Prim2SF b)) as [[]|];
      intro; congruence.
  - rewrite (SFcompare_antisym (Prim2SF a) (Prim2SF b)).
    destruct (SFcompare (Prim2SF a) (Prim2SF b)) as [[]|];
      cbn; intro; congruence.
  - intro H. apply (SFleb_self (Prim2SF a) (Prim2SF b)). exact H.
  - intro H. apply (SFleb_self (Prim2SF a) (Prim2SF b)). exact H.
  - intros c H. rewrite !leb_spec. intro H'.
    exact (SFleb_trans (Prim2SF a) (Prim2SF b) (Prim2SF c) H H').
  - intros Ha Hb. rewrite (SFcompare_antisym (Prim2SF a) (Prim2SF b)).
    destruct (SFcompare (Prim2SF a) (Prim2SF b)) as [[]|] eqn:E;
      cbn; try congruence.
    destruct (SFcompare_none _ _ E) as [N | N]; rewrite N in *; discriminate.
Qed.

End DoubleFacts.

(* ================================================================= *)
(** ** The arithmetic of [double] *)

(** What the IEEE specification of the primitive floats gives for the
    operations of [speedControl] and [drive]: a sum and a difference round
    to the nearest [double], and rounding is monotone, so that a step that
    is not negative never moves a speed the wrong way; an integer below
    the 53rd power of two is a [double]; [std::round] followed by the
    conversion gives the nearest integer. *)

Unset Implicit Arguments.

Module DoubleRounding.

(** The number of binary digits of a mantissa. *)
Definition digits (m : positive) : Z := Z.pos (digits2_pos m).

Lemma digits_pos (m : positive) : 0 < digits m.
Proof. unfold digits. lia. Qed.

Lemma digits_hi (m : positive) : Z.pos m < 2 ^ digits m.
Proof.
  unfold digits. induction m as [m IH|m IH|]; cbn [digits2_pos].
  - rewrite Pos2Z.inj_succ, Z.pow_succ_r by lia. lia.
  - rewrite Pos2Z.inj_succ, Z.pow_succ_r by lia. lia.
  - reflexivity.
Qed.

Lemma digits_lo (m : positive) : 2 ^ (digits m - 1) <= Z.pos m.
Proof.
  unfold digits. induction m as [m IH|m IH|]; cbn [digits2_pos].
  - rewrite Pos2Z.inj_succ. replace (Z.succ (Z.pos (digits2_pos m)) - 1)
      with (Z.succ (Z.pos (digits2_pos m) - 1)) by lia.
    rewrite Z.pow_succ_r by lia. lia.
  - rewrite Pos2Z.inj_succ. replace (Z.succ (Z.pos (digits2_pos m)) - 1)
      with (Z.succ (Z.pos (digits2_pos m) - 1)) by lia.
    rewrite Z.pow_succ_r by lia. lia.
  - cbn. lia.
Qed.

Lemma digits_le_of_lt (m : positive) (n : Z) : Z.pos m < 2 ^ n -> digits m <= n.
Proof.
  intro H. pose proof (digits_lo m) as L. pose proof (digits_pos m).
  destruct (Z_lt_le_dec n (digits m)) as [C|C]; [|exact C].
  exfalso.
  destruct (Z_lt_le_dec n 0) as [N|N].
  - rewrite Z.pow_neg_r in H by lia. lia.
  - assert (2 ^ n <= 2 ^ (digits m - 1)) by (apply Z.pow_le_mono_r; lia). lia.
Qed.

Lemma digits_ge_of_le (m : positive) (n : Z) : 2 ^ n <= Z.pos m -> n < digits m.
Proof.
  intro H. pose proof (digits_hi m) as L. pose proof (digits_pos m).
  destruct (Z_lt_le_dec n (digits m)) as [C|C]; [exact C|].
  exfalso.
  assert (2 ^ (digits m) <= 2 ^ n) by (apply Z.pow_le_mono_r; lia). lia.
Qed.

(** Nothing has been lost in the shifts so far. *)
Definition is_exact (r : shr_record) : Prop := loc_of_shr_record r = loc_Exact.

Lemma is_exact_iff (r : shr_record) :
  is_exact r <-> shr_r r = false /\ shr_s r = false.
Proof.
  unfold is_exact. destruct r as [m [|] [|]]; cbn; split;
    try discriminate; try (intros [? ?]; discriminate); auto.
Qed.

Lemma shr_1_spec (r : shr_record) :
  0 <= shr_m r ->
  shr_m (shr_1 r) = shr_m r / 2 /\
  (is_exact (shr_1 r) <-> is_exact r /\ shr_m r mod 2 = 0).
Proof.
  rewrite !is_exact_iff.
  destruct r as [m r s]. cbn [shr_m shr_r shr_s]. intro Hm.
  destruct m as [|[p|p|]|p]; try lia; cbn [shr_1 shr_m shr_r shr_s].
  - split; [reflexivity|]. rewrite Z.mod_0_l by lia.
    destruct r, s; cbn; intuition congruence.
  - split.
    + rewrite Pos2Z.inj_xI. apply Z.div_unique with 1; lia.
    + rewrite Pos2Z.inj_xI.
      assert ((2 * Z.pos p + 1) mod 2 = 1).
      { symmetry. apply Z.mod_unique with (Z.pos p); lia. }
      rewrite H. intuition (try discriminate; try lia).
  - split.
    + rewrite Pos2Z.inj_xO. apply Z.div_unique with 0; lia.
    + rewrite Pos2Z.inj_xO.
      assert ((2 * Z.pos p) mod 2 = 0).
      { symmetry. apply Z.mod_unique with (Z.pos p); lia. }
      rewrite H. destruct r, s; cbn; intuition congruence.
  - split; [reflexivity|]. cbn. intuition (try discriminate; try lia).
Qed.

Lemma mod_mul_zero (a b c : Z) :
  0 < b -> 0 < c ->
  (a mod (b * c) = 0 <-> a mod b = 0 /\ (a / b) mod c = 0).
Proof.
  intros Hb Hc. rewrite Z.rem_mul_r by lia.
  pose proof (Z.mod_pos_bound a b Hb).
  pose proof (Z.mod_pos_bound (a / b) c Hc).
  split; [intro E; nia | intros [-> ->]; lia].
Qed.

(** Shifting right [p] times divides by the [p]-th power of two, and
    loses nothing exactly when the remainder is zero. *)
Lemma iter_shr_spec (p : positive) :
  forall r : shr_record,
    0 <= shr_m r ->
    shr_m (iter_pos shr_1 p r) = shr_m r / 2 ^ Z.pos p /\
    (is_exact (iter_pos shr_1 p r) <->
     is_exact r /\ shr_m r mod 2 ^ Z.pos p = 0).
Proof.
  induction p as [p IH|p IH|]; intros r Hr; cbn [iter_pos].
  - destruct (shr_1_spec r Hr) as [M1 E1].
    assert (H1 : 0 <= shr_m (shr_1 r)) by (rewrite M1; apply Z.div_pos; lia).
    destruct (IH _ H1) as [M2 E2].
    assert (P : 0 < 2 ^ Z.pos p) by (apply Z.pow_pos_nonneg; lia).
    assert (H2 : 0 <= shr_m (iter_pos shr_1 p (shr_1 r)))
      by (rewrite M2; apply Z.div_pos; lia).
    destruct (IH _ H2) as [M3 E3].
    assert (Q : 2 ^ Z.pos p~1 = 2 * (2 ^ Z.pos p * 2 ^ Z.pos p)).
    { replace (Z.pos p~1) with (1 + Z.pos p + Z.pos p) by lia.
      rewrite !Z.pow_add_r by lia. change (2 ^ 1) with 2. ring. }
    split.
    + rewrite M3, M2, M1, Q. rewrite !Z.div_div by lia. reflexivity.
    + rewrite E3, E2, E1, M2, M1, Q.
      rewrite (mod_mul_zero (shr_m r) 2 (2 ^ Z.pos p * 2 ^ Z.pos p)) by lia.
      rewrite (mod_mul_zero (shr_m r / 2) (2 ^ Z.pos p) (2 ^ Z.pos p)) by lia.
      tauto.
  - assert (P : 0 < 2 ^ Z.pos p) by (apply Z.pow_pos_nonneg; lia).
    destruct (IH _ Hr) as [M2 E2].
    assert (H2 : 0 <= shr_m (iter_pos shr_1 p r))
      by (rewrite M2; apply Z.div_pos; lia).
    destruct (IH _ H2) as [M3 E3].
    assert (Q : 2 ^ Z.pos p~0 = 2 ^ Z.pos p * 2 ^ Z.pos p).
    { replace (Z.pos p~0) with (Z.pos p + Z.pos p) by lia.
      rewrite Z.pow_add_r by lia. reflexivity. }
    split.
    + rewrite M3, M2, Q. rewrite !Z.div_div by lia. reflexivity.
    + rewrite E3, E2, M2, Q.
      rewrite (mod_mul_zero (shr_m r) (2 ^ Z.pos p) (2 ^ Z.pos p)) by lia.
      tauto.
  - change (2 ^ 1) with 2. exact (shr_1_spec r Hr).
Qed.

Local Abbreviation fx := (fexp prec emax).

Lemma fexp_eq (z : Z) : fx z = Z.max (z - 53) (-1074).
Proof. reflexivity. Qed.

Lemma shr_spec (r : shr_record) (e n : Z) :
  0 <= shr_m r ->
  snd (shr r e n) = e + Z.max n 0 /\
  shr_m (fst (shr r e n)) = shr_m r / 2 ^ Z.max n 0 /\
  (is_exact (fst (shr r e n)) <->
   is_exact r /\ shr_m r mod 2 ^ Z.max n 0 = 0).
Proof.
  intro Hr. destruct n as [|p|p]; cbn [shr fst snd Z.max].
  - rewrite Z.add_0_r, Z.div_1_r, Z.mod_1_r. tauto.
  - destruct (iter_shr_spec p r Hr) as [M E].
    replace (Z.max (Z.pos p) 0) with (Z.pos p) by lia. tauto.
  - replace (Z.max (Z.neg p) 0) with 0 by lia.
    rewrite Z.add_0_r, Z.div_1_r, Z.mod_1_r. tauto.
Qed.

Lemma iter_xO (m d : positive) :
  Z.pos (Pos.iter xO m d) = Z.pos m * 2 ^ Z.pos d.
Proof.
  induction d as [|d IH] using Pos.peano_ind.
  - cbn. lia.
  - rewrite Pos.iter_succ, Pos2Z.inj_xO, IH, Pos2Z.inj_succ.
    rewrite Z.pow_succ_r by lia. ring.
Qed.

Lemma shl_align_spec (mx : positive) (ex ex' : Z) :
  snd (shl_align mx ex ex') = Z.min ex ex' /\
  Z.pos (fst (shl_align mx ex ex'))
  = Z.pos mx * 2 ^ (ex - snd (shl_align mx ex ex')).
Proof.
  unfold shl_align. destruct (ex' - ex) as [|p|p] eqn:E; cbn [fst snd].
  - split; [lia|]. rewrite Z.sub_diag. cbn. lia.
  - split; [lia|]. rewrite Z.sub_diag. cbn. lia.
  - split; [lia|]. rewrite iter_xO. f_equal. f_equal. lia.
Qed.

(** The number of binary digits of an integer. *)
Definition Zdigits (m : Z) : Z := Zdigits2 m.

Lemma Zdigits_pos (m : positive) : Zdigits (Z.pos m) = digits m.
Proof. reflexivity. Qed.

(** The last stage of [binary_round_aux]. *)
Definition finish (sx : bool) (m2 e : Z) : spec_float :=
  let '(mrs, e'') := shr_fexp prec emax m2 e loc_Exact in
  match shr_m mrs with
  | Z0 => S754_zero sx
  | Zpos m => if e'' <=? emax - prec then S754_finite sx m e''
              else S754_infinity sx
  | _ => S754_nan
  end.

(** The float of sign [sx], mantissa [mf] and exponent [ef], infinite
    beyond the greatest exponent. *)
Definition build (sx : bool) (mf ef : Z) : spec_float :=
  match mf with
  | Z0 => S754_zero sx
  | Zpos m => if ef <=? 971 then S754_finite sx m ef else S754_infinity sx
  | _ => S754_nan
  end.

Lemma finish_spec (sx : bool) (m2 e : Z) :
  0 <= m2 ->
  let k := Z.max (fx (Zdigits m2 + e) - e) 0 in
  finish sx m2 e = build sx (m2 / 2 ^ k) (e + k).
Proof.
  intros H k. unfold finish, shr_fexp.
  pose proof (shr_spec (shr_record_of_loc m2 loc_Exact) e
                (fx (Zdigits2 m2 + e) - e)) as S.
  cbn [shr_record_of_loc shr_m] in S. specialize (S H).
  destruct (shr _ e _) as [mrs e'']. cbn [fst snd] in S.
  destruct S as (-> & -> & _). reflexivity.
Qed.

Lemma rne_spec (m : Z) (l : location) :
  m <= round_nearest_even m l <= m + 1 /\
  (l = loc_Exact -> round_nearest_even m l = m).
Proof.
  destruct l as [|[| |]]; cbn; [|destruct (Z.even m)| |]; split;
    try lia; try discriminate; auto.
Qed.

(** [binary_round], by cases on the direction of the shift: to the left
    nothing is lost; to the right the mantissa is the quotient or the
    next integer, the quotient when the remainder is zero. *)
Lemma binary_round_left (sx : bool) (M : positive) (e : Z) :
  fx (digits M + e) <= e ->
  binary_round prec emax sx M e
  = build sx (Z.pos M * 2 ^ (e - fx (digits M + e))) (fx (digits M + e)).
Proof.
  intro H. unfold binary_round.
  pose proof (shl_align_spec M e (fx (digits M + e))) as A.
  change (Z.pos (digits2_pos M)) with (digits M).
  destruct (shl_align M e (fx (digits M + e))) as [mz ez]. cbn [fst snd] in A.
  destruct A as [Ez Mz]. rewrite Z.min_r in Ez by lia. subst ez.
  unfold binary_round_aux, shr_fexp.
  assert (P : 0 < 2 ^ (e - fx (digits M + e))) by (apply Z.pow_pos_nonneg; lia).
  assert (Dz : digits mz = digits M + (e - fx (digits M + e))).
  { pose proof (digits_lo M). pose proof (digits_hi M).
    pose proof (digits_pos M).
    apply Z.le_antisymm.
    - apply digits_le_of_lt. rewrite Mz, Z.pow_add_r by lia. nia.
    - assert (digits M + (e - fx (digits M + e)) - 1 < digits mz); [|lia].
      apply digits_ge_of_le. rewrite Mz.
      replace (digits M + (e - fx (digits M + e)) - 1)
        with ((digits M - 1) + (e - fx (digits M + e))) by lia.
      rewrite Z.pow_add_r by lia. nia. }
  cbn [Zdigits2]. change (Z.pos (digits2_pos mz)) with (digits mz).
  rewrite Dz.
  replace (digits M + (e - fx (digits M + e)) + fx (digits M + e))
    with (digits M + e) by lia.
  rewrite Z.sub_diag. cbn [shr shr_record_of_loc shr_m loc_of_shr_record
    round_nearest_even Zdigits2].
  change (Z.pos (digits2_pos mz)) with (digits mz). rewrite Dz.
  replace (digits M + (e - fx (digits M + e)) + fx (digits M + e))
    with (digits M + e) by lia.
  rewrite Z.sub_diag. cbn [shr shr_m]. rewrite <- Mz. reflexivity.
Qed.

Lemma binary_round_right (sx : bool) (M : positive) (e : Z) :
  e < fx (digits M + e) ->
  exists m2 : Z,
    Z.pos M / 2 ^ (fx (digits M + e) - e) <= m2
      <= Z.pos M / 2 ^ (fx (digits M + e) - e) + 1 /\
    (Z.pos M mod 2 ^ (fx (digits M + e) - e) = 0 ->
     m2 = Z.pos M / 2 ^ (fx (digits M + e) - e)) /\
    binary_round prec emax sx M e = finish sx m2 (fx (digits M + e)).
Proof.
  intro H. unfold binary_round.
  pose proof (shl_align_spec M e (fx (digits M + e))) as A.
  change (Z.pos (digits2_pos M)) with (digits M).
  destruct (shl_align M e (fx (digits M + e))) as [mz ez]. cbn [fst snd] in A.
  destruct A as [Ez Mz]. rewrite Z.min_l in Ez by lia. subst ez.
  rewrite Z.sub_diag, Z.mul_1_r in Mz. injection Mz as ->.
  unfold binary_round_aux. fold (finish sx).
  unfold shr_fexp at 1.
  pose proof (shr_spec (shr_record_of_loc (Z.pos M) loc_Exact) e
                (fx (Zdigits2 (Z.pos M) + e) - e)) as S.
  cbn [shr_record_of_loc shr_m] in S. specialize (S ltac:(lia)).
  cbn [Zdigits2] in *. change (Z.pos (digits2_pos M)) with (digits M) in *.
  destruct (shr _ e _) as [mrs e']. cbn [fst snd] in S.
  destruct S as (Ee & Em & Ex).
  replace (Z.max (fx (digits M + e) - e) 0)
    with (fx (digits M + e) - e) in * by lia.
  exists (round_nearest_even (shr_m mrs) (loc_of_shr_record mrs)).
  destruct (rne_spec (shr_m mrs) (loc_of_shr_record mrs)) as [B X].
  split; [rewrite <- Em; exact B|]. split.
  - intro Z0. rewrite <- Em. apply X. apply Ex. split; [reflexivity|exact Z0].
  - subst e'.
    replace (e + (fx (digits M + e) - e)) with (fx (digits M + e)) by lia.
    reflexivity.
Qed.

(** The magnitude of [r] is at most that of the float of mantissa [mx]
    and exponent [ex]. *)
Definition mag_le (r : spec_float) (mx : positive) (ex : Z) : Prop :=
  match r with
  | S754_zero _ => True
  | S754_finite _ m e => e < ex \/ (e = ex /\ Z.pos m <= Z.pos mx)
  | _ => False
  end.

(** The magnitude of [r] is at least that of the float of mantissa [mx]
    and exponent [ex]. *)
Definition mag_ge (r : spec_float) (mx : positive) (ex : Z) : Prop :=
  match r with
  | S754_finite _ m e => ex < e \/ (e = ex /\ Z.pos mx <= Z.pos m)
  | S754_infinity _ => True
  | _ => False
  end.

(** [r] is not a NaN and has the sign [sx]. *)
Definition sign_is (sx : bool) (r : spec_float) : Prop :=
  match r with
  | S754_zero s | S754_infinity s | S754_finite s _ _ => s = sx
  | S754_nan => False
  end.

Lemma bounded_iff (m : positive) (e : Z) :
  bounded prec emax m e = true <-> fx (digits m + e) = e /\ e <= 971.
Proof.
  unfold bounded, canonical_mantissa. rewrite andb_true_iff, Z.eqb_eq, Z.leb_le.
  reflexivity.
Qed.

Lemma Zdigits_le (m n : Z) : 0 <= m -> 0 <= n -> m < 2 ^ n -> Zdigits m <= n.
Proof.
  intros Hm Hn H. destruct m as [|p|p]; [exact Hn | | lia].
  apply digits_le_of_lt. exact H.
Qed.

Lemma Zdigits_ge (m n : Z) : 2 ^ n <= m -> 0 <= n -> n < Zdigits m.
Proof.
  intros H Hn. assert (0 < 2 ^ n) by (apply Z.pow_pos_nonneg; lia).
  destruct m as [|p|p]; try lia. apply digits_ge_of_le. exact H.
Qed.

Lemma build_pos (sx : bool) (m e : Z) :
  0 < m -> e <= 971 ->
  exists p : positive, Z.pos p = m /\ build sx m e = S754_finite sx p e.
Proof.
  intros Hm He. destruct m as [|p|p]; try lia.
  exists p. split; [reflexivity|]. cbn.
  destruct (Z.leb_spec e 971); [reflexivity | lia].
Qed.

Lemma build_cases (sx : bool) (m e : Z) :
  0 <= m ->
  (m = 0 /\ build sx m e = S754_zero sx) \/
  (exists p : positive, Z.pos p = m /\ build sx m e = S754_finite sx p e) \/
  (0 < m /\ 971 < e /\ build sx m e = S754_infinity sx).
Proof.
  intro Hm. destruct m as [|p|p]; try lia.
  - left. auto.
  - right. cbn. destruct (Z.leb_spec e 971).
    + left. exists p. auto.
    + right. repeat split; lia.
Qed.

Lemma pow_split (a b : Z) : 0 <= a -> 0 <= b -> 2 ^ (a + b) = 2 ^ a * 2 ^ b.
Proof. intros. apply Z.pow_add_r; lia. Qed.

(** Rounding is monotone. An integer [M] scaled by the [e]-th power of
    two that is at most a float of mantissa [mx] and exponent [ex] rounds
    to a float that is at most that float. *)
Lemma round_below (sx : bool) (M : positive) (e : Z) (mx : positive) (ex : Z) :
  bounded prec emax mx ex = true ->
  e <= ex ->
  Z.pos M <= Z.pos mx * 2 ^ (ex - e) ->
  mag_le (binary_round prec emax sx M e) mx ex /\
  sign_is sx (binary_round prec emax sx M e).
Proof.
  intros Hb He HM. apply bounded_iff in Hb as [Hc Hmax].
  pose proof (digits_lo M) as ML. pose proof (digits_hi M) as MH.
  pose proof (digits_pos M) as Md.
  pose proof (digits_lo mx) as XL. pose proof (digits_hi mx) as XH.
  pose proof (digits_pos mx) as Xd.
  assert (P1 : 0 < 2 ^ (ex - e)) by (apply Z.pow_pos_nonneg; lia).
  assert (Hd : digits M + e <= digits mx + ex).
  { assert (digits M <= digits mx + (ex - e)); [|lia].
    apply digits_le_of_lt. rewrite pow_split by lia. nia. }
  rewrite fexp_eq in Hc.
  destruct (Z_le_gt_dec (fx (digits M + e)) e) as [L|R].
  - rewrite (binary_round_left sx M e L).
    rewrite fexp_eq in *.
    set (es := Z.max (digits M + e - 53) (-1074)) in *.
    assert (P2 : 0 < 2 ^ (e - es)) by (apply Z.pow_pos_nonneg; lia).
    destruct (build_pos sx (Z.pos M * 2 ^ (e - es)) es) as (p & Ep & ->);
      [nia | lia |].
    cbn. split; [|reflexivity].
    destruct (Z.eq_dec es ex) as [E|E]; [right | left; lia].
    split; [exact E|]. assert (e = ex) by lia. subst e.
    rewrite Ep. replace (ex - es) with 0 by lia.
    rewrite Z.sub_diag in HM. cbn in HM |- *. lia.
  - destruct (binary_round_right sx M e ltac:(lia)) as (m2 & Bm & Xm & ->).
    rewrite fexp_eq in *.
    set (es := Z.max (digits M + e - 53) (-1074)) in *.
    set (n := es - e) in *.
    assert (Pn : 0 < 2 ^ n) by (apply Z.pow_pos_nonneg; lia).
    set (q := Z.pos M / 2 ^ n) in *.
    assert (Hq : 0 <= q) by (apply Z.div_pos; lia).
    assert (Hq53 : q < 2 ^ 53).
    { apply Z.div_lt_upper_bound; [lia|].
      rewrite <- pow_split by lia.
      apply Z.lt_le_trans with (2 ^ digits M); [exact MH|].
      apply Z.pow_le_mono_r; lia. }
    rewrite finish_spec by lia. rewrite fexp_eq. cbn zeta.
    assert (Hz : Zdigits m2 <= 54).
    { apply Zdigits_le; lia. }
    destruct (Z.eq_dec es ex) as [E|E].
    + (* same exponent as the bound *)
      assert (n = ex - e) by lia.
      assert (Hqx : q <= Z.pos mx).
      { apply Z.div_le_upper_bound; [lia|]. rewrite H in *. nia. }
      assert (Hm2 : m2 <= Z.pos mx).
      { destruct (Z.eq_dec q (Z.pos mx)) as [Q|Q]; [|lia].
        rewrite Xm; [lia|].
        pose proof (Z.div_mod (Z.pos M) (2 ^ n) ltac:(lia)) as DM.
        pose proof (Z.mod_pos_bound (Z.pos M) (2 ^ n) Pn) as MB.
        fold q in DM. rewrite Q in DM. rewrite H in *. nia. }
      assert (Hzz : Zdigits m2 <= digits mx).
      { destruct m2 as [|p|p]; [cbn; lia | apply digits_le_of_lt; lia | lia]. }
      replace (Z.max (Z.max (Zdigits m2 + es - 53) (-1074) - es) 0)
        with 0 by lia.
      rewrite Z.div_1_r, Z.add_0_r.
      destruct (build_cases sx m2 es ltac:(lia))
        as [(Z0 & ->) | [(p & Ep & ->) | (Zp & Big & ->)]]; cbn.
      * auto.
      * split; [right; split; lia | reflexivity].
      * lia.
    + (* a smaller exponent *)
      assert (es < ex) by lia.
      set (kk := Z.max (Z.max (Zdigits m2 + es - 53) (-1074) - es) 0).
      assert (Hk : kk = 0 \/ (kk = 1 /\ Zdigits m2 = 54)) by lia.
      assert (Pk : 0 < 2 ^ kk) by (apply Z.pow_pos_nonneg; lia).
      assert (Hmf : 0 <= m2 / 2 ^ kk) by (apply Z.div_pos; lia).
      destruct (build_cases sx (m2 / 2 ^ kk) (es + kk) Hmf)
        as [(Z0 & ->) | [(p & Ep & ->) | (Zp & Big & ->)]]; cbn.
      * auto.
      * split; [|reflexivity].
        destruct Hk as [K0 | [K1 Z54]].
        -- left. lia.
        -- destruct (Z.eq_dec (es + kk) ex) as [Ex|Ex]; [right|left; lia].
           split; [exact Ex|].
           assert (digits mx = 53) by lia.
           rewrite H0 in XL. change (2 ^ (53 - 1)) with (2 ^ 52) in XL.
           rewrite Ep, K1. change (2 ^ 1) with 2.
           assert (m2 <= 2 ^ 53) by lia.
           apply Z.le_trans with (2 ^ 52); [|exact XL].
           apply Z.div_le_upper_bound; [lia|].
           change (2 * 2 ^ 52) with (2 ^ 53). lia.
      * lia.
Qed.

(** And one that is at least that float rounds to a float that is at
    least that float. *)
Lemma round_above (sx : bool) (M : positive) (e : Z) (mx : positive) (ex : Z) :
  bounded prec emax mx ex = true ->
  e <= ex ->
  Z.pos mx * 2 ^ (ex - e) <= Z.pos M ->
  mag_ge (binary_round prec emax sx M e) mx ex /\
  sign_is sx (binary_round prec emax sx M e).
Proof.
  intros Hb He HM. apply bounded_iff in Hb as [Hc Hmax].
  pose proof (digits_lo M) as ML. pose proof (digits_hi M) as MH.
  pose proof (digits_pos M) as Md.
  pose proof (digits_lo mx) as XL. pose proof (digits_hi mx) as XH.
  pose proof (digits_pos mx) as Xd.
  assert (P1 : 0 < 2 ^ (ex - e)) by (apply Z.pow_pos_nonneg; lia).
  assert (Hd : digits mx + ex <= digits M + e).
  { assert (digits mx - 1 + (ex - e) < digits M); [|lia].
    apply digits_ge_of_le. rewrite pow_split by lia. nia. }
  rewrite fexp_eq in Hc.
  destruct (Z_le_gt_dec (fx (digits M + e)) e) as [L|R].
  - rewrite (binary_round_left sx M e L).
    rewrite fexp_eq in *.
    set (es := Z.max (digits M + e - 53) (-1074)) in *.
    assert (es = ex /\ e = ex) as [E1 E2] by lia.
    replace (e - es) with 0 by lia. rewrite Z.mul_1_r.
    cbn. destruct (Z.leb_spec es 971); [|lia].
    cbn. split; [|reflexivity]. right. split; [exact E1|].
    subst e. rewrite Z.sub_diag in HM. cbn in HM. lia.
  - destruct (binary_round_right sx M e ltac:(lia)) as (m2 & Bm & Xm & ->).
    rewrite fexp_eq in *.
    set (es := Z.max (digits M + e - 53) (-1074)) in *.
    set (n := es - e) in *.
    assert (Pn : 0 < 2 ^ n) by (apply Z.pow_pos_nonneg; lia).
    set (q := Z.pos M / 2 ^ n) in *.
    assert (Hq : 0 <= q) by (apply Z.div_pos; lia).
    rewrite finish_spec by lia. rewrite fexp_eq. cbn zeta.
    set (kk := Z.max (Z.max (Zdigits m2 + es - 53) (-1074) - es) 0).
    assert (Pk : 0 < 2 ^ kk) by (apply Z.pow_pos_nonneg; lia).
    (* the rounded mantissa is positive, and so is what is left of it *)
    assert (Hm2 : 0 < m2 /\ (es = ex -> Z.pos mx <= m2)).
    { destruct (Z.eq_dec es ex) as [E|E].
      - assert (n = ex - e) by lia.
        assert (Z.pos mx <= q); [|lia].
        apply Z.div_le_lower_bound; [lia|]. rewrite H. nia.
      - assert (ex < es) by lia.
        assert (es = digits M + e - 53) by lia.
        assert (n = digits M - 53) by lia.
        assert (2 ^ 52 <= q).
        { apply Z.div_le_lower_bound; [lia|].
          rewrite H1. rewrite <- pow_split by lia.
          replace (digits M - 53 + 52) with (digits M - 1) by lia. exact ML. }
        split; [|lia].
        assert (0 < 2 ^ 52) by (apply Z.pow_pos_nonneg; lia). lia. }
    destruct Hm2 as [Hm2 Hm2x].
    assert (Hmf : 0 < m2 / 2 ^ kk).
    { destruct (Z.eq_dec kk 0) as [K|K].
      - rewrite K, Z.div_1_r. exact Hm2.
      - assert (kk = Zdigits m2 - 53) by lia.
        assert (Hz : 2 ^ (Zdigits m2 - 1) <= m2).
        { destruct m2 as [|p|p]; try lia. exact (digits_lo p). }
        assert (2 ^ 52 <= m2 / 2 ^ kk).
        { apply Z.div_le_lower_bound; [lia|].
          rewrite H. rewrite <- pow_split by lia.
          replace (Zdigits m2 - 53 + 52) with (Zdigits m2 - 1) by lia.
          exact Hz. }
        assert (0 < 2 ^ 52) by (apply Z.pow_pos_nonneg; lia). lia. }
    destruct (build_cases sx (m2 / 2 ^ kk) (es + kk) ltac:(lia))
      as [(Z0 & ->) | [(p & Ep & ->) | (Zp & Big & ->)]]; cbn.
    + lia.
    + split; [|reflexivity].
      destruct (Z.eq_dec (es + kk) ex) as [Ex|Ex]; [right|left; lia].
      split; [exact Ex|]. assert (kk = 0 /\ es = ex) as [K E] by lia.
      rewrite Ep, K, Z.div_1_r. auto.
    + auto.
Qed.

(** Rounding keeps the sign and gives no NaN. *)
Lemma binary_round_sign (sx : bool) (M : positive) (e : Z) :
  sign_is sx (binary_round prec emax sx M e).
Proof.
  destruct (Z_le_gt_dec (fx (digits M + e)) e) as [L|R].
  - rewrite (binary_round_left sx M e L).
    assert (0 < 2 ^ (e - fx (digits M + e))) by (apply Z.pow_pos_nonneg; lia).
    destruct (build_cases sx (Z.pos M * 2 ^ (e - fx (digits M + e)))
                (fx (digits M + e)) ltac:(nia))
      as [(Z0 & ->) | [(p & Ep & ->) | (Zp & Big & ->)]]; reflexivity.
  - destruct (binary_round_right sx M e ltac:(lia)) as (m2 & Bm & Xm & ->).
    assert (0 < 2 ^ (fx (digits M + e) - e)) by (apply Z.pow_pos_nonneg; lia).
    assert (0 <= Z.pos M / 2 ^ (fx (digits M + e) - e)) by (apply Z.div_pos; lia).
    rewrite finish_spec by lia. cbn zeta.
    match goal with
    | |- sign_is _ (build _ (_ / 2 ^ ?k) _) =>
        assert (0 < 2 ^ k) by (apply Z.pow_pos_nonneg; lia)
    end.
    match goal with
    | |- sign_is _ (build _ ?m ?ee) =>
        assert (0 <= m) by (apply Z.div_pos; lia);
        destruct (build_cases sx m ee ltac:(assumption))
          as [(Z0 & ->) | [(p & Ep & ->) | (Zp & Big & ->)]]; reflexivity
    end.
Qed.

(** A float that is not a NaN. *)
Definition is_number (x : spec_float) : Prop :=
  match x with S754_nan => False | _ => True end.

(** A float that is zero, positive or plus infinity. *)
Definition is_nonneg (x : spec_float) : Prop :=
  match x with
  | S754_zero _ | S754_finite false _ _ | S754_infinity false => True
  | _ => False
  end.

(** A float that is not plus infinity. *)
Definition not_pinf (x : spec_float) : Prop :=
  match x with S754_infinity false => False | _ => True end.

(** A float that is not minus infinity. *)
Definition not_ninf (x : spec_float) : Prop :=
  match x with S754_infinity true => False | _ => True end.

Lemma SFleb_refl (x : spec_float) : is_number x -> SFleb x x = true.
Proof.
  destruct x as [s|s| |s m e]; cbn; try contradiction; intros _.
  - reflexivity.
  - destruct s; reflexivity.
  - unfold SFleb. cbn. rewrite Z.compare_refl.
    change (PosDef.Pos.compare_cont Eq m m) with (Pos.compare m m).
    rewrite Pos.compare_refl. destruct s; reflexivity.
Qed.

Lemma le_of_mag_le (r : spec_float) (mx : positive) (ex : Z) :
  mag_le r mx ex -> sign_is false r ->
  SFleb r (S754_finite false mx ex) = true.
Proof.
  destruct r as [s|s| |s m e]; cbn; try contradiction.
  - intros _ ->. reflexivity.
  - intros H ->. unfold SFleb. cbn.
    change (PosDef.Pos.compare_cont Eq m mx) with (Pos.compare m mx).
    destruct H as [H | [-> H]].
    + apply Z.compare_lt_iff in H. rewrite H. reflexivity.
    + rewrite Z.compare_refl.
      destruct (Pos.compare_spec m mx); try reflexivity. lia.
Qed.

Lemma ge_of_mag_le (r : spec_float) (mx : positive) (ex : Z) :
  mag_le r mx ex -> sign_is true r ->
  SFleb (S754_finite true mx ex) r = true.
Proof.
  destruct r as [s|s| |s m e]; cbn; try contradiction.
  - intros _ ->. reflexivity.
  - intros H ->. unfold SFleb. cbn.
    change (PosDef.Pos.compare_cont Eq mx m) with (Pos.compare mx m).
    destruct H as [H | [-> H]].
    + apply Z.compare_gt_iff in H. rewrite H. reflexivity.
    + rewrite Z.compare_refl.
      destruct (Pos.compare_spec mx m); try reflexivity. lia.
Qed.

Lemma ge_of_mag_ge (r : spec_float) (mx : positive) (ex : Z) :
  mag_ge r mx ex -> sign_is false r ->
  SFleb (S754_finite false mx ex) r = true.
Proof.
  destruct r as [s|s| |s m e]; cbn; try contradiction.
  - intros _ ->. reflexivity.
  - intros H ->. unfold SFleb. cbn.
    change (PosDef.Pos.compare_cont Eq mx m) with (Pos.compare mx m).
    destruct H as [H | [-> H]].
    + apply Z.compare_lt_iff in H. rewrite H. reflexivity.
    + rewrite Z.compare_refl.
      destruct (Pos.compare_spec mx m); try reflexivity. lia.
Qed.

Lemma le_of_mag_ge (r : spec_float) (mx : positive) (ex : Z) :
  mag_ge r mx ex -> sign_is true r ->
  SFleb r (S754_finite true mx ex) = true.
Proof.
  destruct r as [s|s| |s m e]; cbn; try contradiction.
  - intros _ ->. reflexivity.
  - intros H ->. unfold SFleb. cbn.
    change (PosDef.Pos.compare_cont Eq m mx) with (Pos.compare m mx).
    destruct H as [H | [-> H]].
    + apply Z.compare_gt_iff in H. rewrite H. reflexivity.
    + rewrite Z.compare_refl.
      destruct (Pos.compare_spec m mx); try reflexivity. lia.
Qed.

Lemma neg_le_pos (r : spec_float) (mx : positive) (ex : Z) :
  sign_is true r -> SFleb r (S754_finite false mx ex) = true.
Proof. destruct r as [s|s| |s m e]; cbn; try contradiction; intros ->; reflexivity. Qed.

Lemma neg_le_pos_r (r : spec_float) (mx : positive) (ex : Z) :
  sign_is false r -> SFleb (S754_finite true mx ex) r = true.
Proof. destruct r as [s|s| |s m e]; cbn; try contradiction; intros ->; reflexivity. Qed.

(** The mantissa of an operand once brought to the smaller exponent. *)
Lemma aligned (mx : positive) (ex ey : Z) :
  Z.pos (fst (shl_align mx ex (Z.min ex ey)))
  = Z.pos mx * 2 ^ (ex - Z.min ex ey).
Proof.
  destruct (shl_align_spec mx ex (Z.min ex ey)) as [E M].
  rewrite M, E. f_equal. f_equal. lia.
Qed.

(** Subtracting a step that is not negative does not raise a number,
    unless both are plus infinity, where the difference is a NaN. *)
Lemma SFsub_le (x d : spec_float) :
  valid_binary x = true -> is_number x -> is_nonneg d ->
  not_pinf d \/ not_pinf x ->
  SFleb (SFsub prec emax x d) x = true.
Proof.
  intros Vx Fx Nd Hinf.
  destruct x as [sx|sx| |sx mx ex]; try contradiction;
    destruct d as [sd|[|]| |[|] my ey]; try contradiction.
  - destruct sx, sd; reflexivity.
  - destruct sx; reflexivity.
  - reflexivity.
  - destruct sx; reflexivity.
  - destruct sx; [reflexivity | cbn in Hinf; tauto].
  - destruct sx; reflexivity.
  - apply SFleb_refl. exact I.
  - destruct sx; reflexivity.
  - cbn [SFsub]. cbn [valid_binary] in Vx.
    rewrite (aligned mx ex ey).
    replace (fst (shl_align my ey (Z.min ex ey)))
      with (fst (shl_align my ey (Z.min ey ex)))
      by (rewrite Z.min_comm; reflexivity).
    set (Y := Z.pos (fst (shl_align my ey (Z.min ey ex)))) in *.
    assert (HY : 0 < Y) by (subst Y; lia).
    set (ez := Z.min ex ey).
    assert (P : 0 < 2 ^ (ex - ez)) by (apply Z.pow_pos_nonneg; lia).
    destruct sx; cbn [cond_Zopp].
    + (* a negative number: the magnitude grows *)
      destruct (- (Z.pos mx * 2 ^ (ex - ez)) - Y) as [|p|p] eqn:E;
        try nia.
      cbn [binary_normalize].
      destruct (round_above true p ez mx ex Vx ltac:(lia) ltac:(nia))
        as [G Sg].
      apply le_of_mag_ge; assumption.
    + destruct (Z.pos mx * 2 ^ (ex - ez) - Y) as [|p|p] eqn:E;
        cbn [binary_normalize].
      * reflexivity.
      * destruct (round_below false p ez mx ex Vx ltac:(lia) ltac:(nia))
          as [G Sg].
        apply le_of_mag_le; assumption.
      * apply neg_le_pos, binary_round_sign.
Qed.

(** Adding a step that is not negative does not lower a number, unless
    the number is minus infinity and the step plus infinity, where the sum
    is a NaN. *)
Lemma SFadd_ge (x a : spec_float) :
  valid_binary x = true -> is_number x -> is_nonneg a ->
  not_pinf a \/ not_ninf x ->
  SFleb x (SFadd prec emax x a) = true.
Proof.
  intros Vx Fx Na Hinf.
  destruct x as [sx|sx| |sx mx ex]; try contradiction;
    destruct a as [sa|[|]| |[|] my ey]; try contradiction.
  - destruct sx, sa; reflexivity.
  - destruct sx; reflexivity.
  - reflexivity.
  - destruct sx; reflexivity.
  - destruct sx; [cbn in Hinf; tauto | reflexivity].
  - destruct sx; reflexivity.
  - apply SFleb_refl. exact I.
  - destruct sx; reflexivity.
  - cbn [SFadd]. cbn [valid_binary] in Vx.
    rewrite (aligned mx ex ey).
    replace (fst (shl_align my ey (Z.min ex ey)))
      with (fst (shl_align my ey (Z.min ey ex)))
      by (rewrite Z.min_comm; reflexivity).
    set (Y := Z.pos (fst (shl_align my ey (Z.min ey ex)))) in *.
    assert (HY : 0 < Y) by (subst Y; lia).
    set (ez := Z.min ex ey).
    assert (P : 0 < 2 ^ (ex - ez)) by (apply Z.pow_pos_nonneg; lia).
    destruct sx; cbn [cond_Zopp].
    + destruct (- (Z.pos mx * 2 ^ (ex - ez)) + Y) as [|p|p] eqn:E;
        cbn [binary_normalize].
      * reflexivity.
      * apply neg_le_pos_r, binary_round_sign.
      * destruct (round_below true p ez mx ex Vx ltac:(lia) ltac:(nia))
          as [G Sg].
        apply ge_of_mag_le; assumption.
    + destruct (Z.pos mx * 2 ^ (ex - ez) + Y) as [|p|p] eqn:E; try nia.
      cbn [binary_normalize].
      destruct (round_above false p ez mx ex Vx ltac:(lia) ltac:(nia))
        as [G Sg].
      apply ge_of_mag_ge; assumption.
Qed.

(** The same at the level of the primitive floats. *)
Lemma number_of_leb (v : float) :
  PrimFloat.leb v v = true -> is_number (Prim2SF v).
Proof.
  rewrite leb_spec. destruct (Prim2SF v); cbn; auto. discriminate.
Qed.

Lemma nonneg_of_leb (d : float) :
  PrimFloat.leb 0 d = true -> is_nonneg (Prim2SF d).
Proof.
  rewrite leb_spec. change (Prim2SF 0) with (S754_zero false).
  unfold SFleb. destruct (Prim2SF d) as [s|[|]| |[|] m e]; cbn; auto;
    discriminate.
Qed.

Lemma not_pinf_of_ltb (d : float) :
  PrimFloat.ltb d infinity = true -> not_pinf (Prim2SF d).
Proof.
  rewrite ltb_spec. change (Prim2SF infinity) with (S754_infinity false).
  unfold SFltb. destruct (Prim2SF d) as [s|[|]| |[|] m e]; cbn; auto;
    discriminate.
Qed.

Lemma not_ninf_of_ltb (d : float) :
  PrimFloat.ltb neg_infinity d = true -> not_ninf (Prim2SF d).
Proof.
  rewrite ltb_spec. change (Prim2SF neg_infinity) with (S754_infinity true).
  unfold SFltb. destruct (Prim2SF d) as [s|[|]| |[|] m e]; cbn; auto;
    discriminate.
Qed.

Lemma sub_le (v d : float) :
  PrimFloat.leb v v = true ->
  PrimFloat.leb 0 d = true ->
  PrimFloat.ltb d infinity = true \/ PrimFloat.ltb v infinity = true ->
  PrimFloat.leb (v - d) v = true.
Proof.
  intros Fv Hd Hf. rewrite leb_spec, sub_spec.
  apply SFsub_le;
    [apply Prim2SF_valid | apply number_of_leb, Fv | apply nonneg_of_leb, Hd |].
  destruct Hf as [Hf|Hf]; [left|right]; apply not_pinf_of_ltb, Hf.
Qed.

Lemma add_ge (v a : float) :
  PrimFloat.leb v v = true ->
  PrimFloat.leb 0 a = true ->
  PrimFloat.ltb a infinity = true \/ PrimFloat.ltb neg_infinity v = true ->
  PrimFloat.leb v (v + a) = true.
Proof.
  intros Fv Ha Hf. rewrite leb_spec, add_spec.
  apply SFadd_ge;
    [apply Prim2SF_valid | apply number_of_leb, Fv | apply nonneg_of_leb, Ha |].
  destruct Hf as [Hf|Hf];
    [left; apply not_pinf_of_ltb, Hf | right; apply not_ninf_of_ltb, Hf].
Qed.

(** A speed between two bounds, a step that is not negative: the step
    down does not raise the speed if the step or the upper bound is
    finite, the step up does not lower it if the step or the lower bound
    is finite. *)
Lemma below_infinity (v hi : float) :
  PrimFloat.leb v hi = true -> PrimFloat.ltb hi infinity = true ->
  PrimFloat.ltb v infinity = true.
Proof.
  rewrite !ltb_spec, leb_spec.
  change (Prim2SF infinity) with (S754_infinity false).
  unfold SFltb, SFleb.
  destruct (Prim2SF v) as [s|[|]| |[|] m e]; try reflexivity;
    destruct (Prim2SF hi) as [s'|[|]| |[|] m' e']; cbn; intros;
    discriminate.
Qed.

Lemma above_neg_infinity (lo v : float) :
  PrimFloat.leb lo v = true -> PrimFloat.ltb neg_infinity lo = true ->
  PrimFloat.ltb neg_infinity v = true.
Proof.
  rewrite !ltb_spec, leb_spec.
  change (Prim2SF neg_infinity) with (S754_infinity true).
  unfold SFltb, SFleb.
  destruct (Prim2SF v) as [s|[|]| |[|] m e]; try reflexivity;
    destruct (Prim2SF lo) as [s'|[|]| |[|] m' e']; cbn; intros;
    discriminate.
Qed.

Lemma step_down (lo hi v d : float) :
  PrimFloat.leb 0 d = true ->
  PrimFloat.ltb d infinity = true \/ PrimFloat.ltb hi infinity = true ->
  (PrimFloat.leb lo v && PrimFloat.leb v hi)%bool = true ->
  PrimFloat.leb (v - d) v = true.
Proof.
  intros Hd Hf Hv. apply andb_true_iff in Hv as [Lo Hi].
  apply sub_le; [|exact Hd|].
  - exact (@prec_le_right float _ DoubleFacts.double_order_laws lo v Lo).
  - destruct Hf as [Hf|Hf]; [left; exact Hf | right].
    exact (below_infinity v hi Hi Hf).
Qed.

Lemma step_up (lo hi v a : float) :
  PrimFloat.leb 0 a = true ->
  PrimFloat.ltb a infinity = true \/ PrimFloat.ltb neg_infinity lo = true ->
  (PrimFloat.leb lo v && PrimFloat.leb v hi)%bool = true ->
  PrimFloat.leb v (v + a) = true.
Proof.
  intros Ha Hf Hv. apply andb_true_iff in Hv as [Lo Hi].
  apply add_ge; [|exact Ha|].
  - exact (@prec_le_right float _ DoubleFacts.double_order_laws lo v Lo).
  - destruct Hf as [Hf|Hf]; [left; exact Hf | right].
    exact (above_neg_infinity lo v Lo Hf).
Qed.

Lemma of_int_spec (n : Z) :
  0 <= n < 2 ^ 53 ->
  Prim2SF (Double.of_int n) = binary_normalize prec emax n 0 false.
Proof.
  intro H. unfold Double.of_int.
  destruct (Z.ltb_spec n 0); [lia|].
  rewrite of_uint63_spec, Uint63.of_Z_spec.
  rewrite Z.mod_small; [reflexivity|].
  change Uint63.wB with (2 ^ 63).
  assert (2 ^ 53 < 2 ^ 63) by (apply Z.pow_lt_mono_r; lia). lia.
Qed.

Lemma normalize_exact (p : positive) :
  Z.pos p < 2 ^ 53 ->
  exists q : positive,
    Z.pos q = Z.pos p * 2 ^ (53 - digits p) /\
    binary_normalize prec emax (Z.pos p) 0 false
    = S754_finite false q (digits p - 53).
Proof.
  intro H. pose proof (digits_pos p). pose proof (digits_le_of_lt p 53 H).
  cbn [binary_normalize].
  assert (F : fx (digits p + 0) = digits p - 53) by (rewrite fexp_eq; lia).
  rewrite binary_round_left by lia. rewrite F.
  assert (0 < 2 ^ (53 - digits p)) by (apply Z.pow_pos_nonneg; lia).
  replace (0 - (digits p - 53)) with (53 - digits p) by lia.
  destruct (build_pos false (Z.pos p * 2 ^ (53 - digits p)) (digits p - 53))
    as (q & Eq & ->); [nia | lia |].
  exists q. auto.
Qed.

Lemma SF_trunc_exact (s : bool) (q p : positive) (e : Z) :
  e <= 0 -> Z.pos q = Z.pos p * 2 ^ (- e) ->
  Double.SF_trunc (S754_finite s q e) = if s then - Z.pos p else Z.pos p.
Proof.
  intros He Hq. cbn [Double.SF_trunc].
  assert (0 < 2 ^ (- e)) by (apply Z.pow_pos_nonneg; lia).
  destruct (Z.leb_spec 0 e).
  - assert (e = 0) by lia. subst e. rewrite Z.shiftl_0_r.
    cbn in Hq. rewrite Hq. destruct s; lia.
  - rewrite Z.shiftr_div_pow2 by lia. rewrite Hq, Z.div_mul by lia.
    reflexivity.
Qed.

(** An integer below 2^53 is a [double], and converts back to itself. *)
Lemma to_int_of_int (n : Z) :
  0 <= n < 2 ^ 53 ->
  Double.to_int (Double.of_int n) = n /\
  Double.to_int (PrimFloat.opp (Double.of_int n)) = - n.
Proof.
  intro H. unfold Double.to_int. rewrite opp_spec, (of_int_spec n H).
  destruct n as [|p|p]; [split; reflexivity | | lia].
  destruct (normalize_exact p ltac:(lia)) as (q & Eq & ->).
  pose proof (digits_pos p). pose proof (digits_le_of_lt p 53 ltac:(lia)).
  cbn [SFopp negb].
  assert (Z.pos q = Z.pos p * 2 ^ (- (digits p - 53))).
  { rewrite Eq. f_equal. f_equal. lia. }
  rewrite !(SF_trunc_exact _ q p (digits p - 53)) by (assumption || lia).
  split; reflexivity.
Qed.

Lemma mantissa_below (s : bool) (m : positive) (e : Z) :
  valid_binary (S754_finite s m e) = true -> Z.pos m < 2 ^ 53.
Proof.
  intro H. cbn in H. apply bounded_iff in H as [H _]. rewrite fexp_eq in H.
  pose proof (digits_hi m) as B.
  apply (Z.lt_le_trans _ _ _ B). apply Z.pow_le_mono_r; lia.
Qed.

(** [std::round] followed by the conversion to an integer, on a finite
    [double] of mantissa [m] and exponent [e]: for an exponent that is not
    negative the value itself, an integer; otherwise, with [q] the
    [-e]-th power of two, the integer nearest to [m / q], the one of
    greater magnitude of two that are as near. *)
Lemma round_nearest (x : float) (s : bool) (m : positive) (e : Z) :
  Prim2SF x = S754_finite s m e ->
  exists N : Z,
    Double.to_int (Double.round x) = (if s then - N else N) /\
    0 <= N /\
    (0 <= e -> N = Z.pos m * 2 ^ e) /\
    (e < 0 -> 2 * N * 2 ^ (- e) - 2 ^ (- e) <= 2 * Z.pos m
              < 2 * N * 2 ^ (- e) + 2 ^ (- e)).
Proof.
  intro E. pose proof (Prim2SF_valid x) as V. rewrite E in V.
  pose proof (mantissa_below s m e V) as Hm.
  unfold Double.round. rewrite E.
  destruct (Z.leb_spec 0 e) as [He|He].
  - exists (Z.pos m * 2 ^ e).
    assert (0 < 2 ^ e) by (apply Z.pow_pos_nonneg; lia).
    unfold Double.to_int. rewrite E. cbn [Double.SF_trunc].
    destruct (Z.leb_spec 0 e); [|lia].
    rewrite Z.shiftl_mul_pow2 by lia.
    repeat split; lia.
  - set (N := Double.SF_round_mag m e).
    assert (P1 : 0 < 2 ^ (- e - 1)) by (apply Z.pow_pos_nonneg; lia).
    assert (P2 : 2 ^ (- e) = 2 * 2 ^ (- e - 1)).
    { replace (- e) with (Z.succ (- e - 1)) at 1 by lia.
      apply Z.pow_succ_r. lia. }
    assert (HN : N = (Z.pos m + 2 ^ (- e - 1)) / 2 ^ (- e)).
    { unfold N, Double.SF_round_mag.
      rewrite Z.shiftr_div_pow2, Z.shiftl_mul_pow2 by lia.
      rewrite Z.mul_1_l. reflexivity. }
    pose proof (Z.div_mod (Z.pos m + 2 ^ (- e - 1)) (2 ^ (- e)) ltac:(lia))
      as DM.
    pose proof (Z.mod_pos_bound (Z.pos m + 2 ^ (- e - 1)) (2 ^ (- e))
                  ltac:(lia)) as MB.
    rewrite <- HN in DM.
    assert (N0 : 0 <= N) by (rewrite HN; apply Z.div_pos; lia).
    assert (N53 : N < 2 ^ 53).
    { rewrite HN. apply Z.div_lt_upper_bound; [lia|]. nia. }
    destruct (to_int_of_int N ltac:(lia)) as [Tp Tn].
    exists N. cbn zeta. fold N.
    split; [destruct s; assumption|].
    split; [exact N0|]. split; [lia|]. intros _. lia.
Qed.

End DoubleRounding.

Set Implicit Arguments.

(* ================================================================= *)
(** ** The members a step leaves alone *)

Section ControllerFacts.
Context {PREC : Type} {ops : Precision PREC}.
Context {F S D : Type}.
Context {filter : MovingAverageFilter PREC F}.
Context {stanley : StanleyController PREC S}.
Context {detector : HoughTransformLaneDetector PREC D}.

Local Abbreviation LKS := (@LaneKeepingSystem PREC F S D).

Lemma speedControl_assigns (a : PREC) (s : LKS) :
  speedControl a s = set_mXycarSpeed (nextSpeed a s) s.
Proof.
  unfold speedControl, nextSpeed.
  destruct (prec_gt (prec_abs a) (mXycarSpeedControlThreshold s));
    reflexivity.
Qed.

Lemma spinOnce_nil (s : LKS) : spinOnce [] s = s.
Proof. reflexivity. Qed.

Lemma spinOnce_speed (queue : list Image) (s : LKS) :
  mXycarSpeed (spinOnce queue s) = mXycarSpeed s /\
  sameSpeedParams s (spinOnce queue s).
Proof.
  unfold spinOnce. revert s.
  induction queue as [|m queue IH]; intro s; cbn.
  - repeat split.
  - destruct (IH (imageCallback m s)) as [Hv Hp].
    split; [exact Hv|].
    unfold sameSpeedParams in *. cbn in Hp. exact Hp.
Qed.

Lemma perceive_speed (s : LKS) :
  mXycarSpeed (snd (perceive s)) = mXycarSpeed s /\
  sameSpeedParams s (snd (perceive s)) /\
  mFrame (snd (perceive s)) = mFrame s.
Proof.
  unfold perceive, sameSpeedParams.
  destruct (getLanePosition (mFrame s) (mHoughTransformLaneDetector s))
    as [[l r] d].
  cbn. repeat split.
Qed.

Lemma run_body_idle (k : Z) (s : LKS) :
  Mat_empty (mFrame s) = true -> run_body k [] s = (s, []).
Proof.
  intro H. unfold run_body. rewrite spinOnce_nil, H. reflexivity.
Qed.

Lemma run_body_active (k : Z) (queue : list Image) (s : LKS) :
  Mat_empty (mFrame (spinOnce queue s)) = false ->
  let s1 := perceive (spinOnce queue s) in
  let s2 := steer (snd s1) in
  let a := steeringAngle k (stanley_getResult (mStanley s2)) in
  run_body k queue s =
    (debug (fst s1) (estimatedPositionX (snd s1)) (speedControl a s2),
     snd (drive a (speedControl a s2))).
Proof.
  intro H. unfold run_body. rewrite H.
  destruct (perceive (spinOnce queue s)) as [lanes s1]. reflexivity.
Qed.

Lemma debug_speed (lanes : Z * Z) (x : Z) (s : LKS) :
  mXycarSpeed (debug lanes x s) = mXycarSpeed s /\
  sameSpeedParams s (debug lanes x s).
Proof.
  unfold debug, sameSpeedParams.
  destruct (mDebugging s); cbn; repeat split.
Qed.

End ControllerFacts.

(* ================================================================= *)
(** ** The speed controller *)

Section SpeedControllerFacts.
Context {PREC : Type} {ops : Precision PREC}.
Context {F S D : Type}.
Context {filter : MovingAverageFilter PREC F}.
Context {stanley : StanleyController PREC S}.
Context {detector : HoughTransformLaneDetector PREC D}.

Local Abbreviation LKS := (@LaneKeepingSystem PREC F S D).

Lemma nextSpeed_ext (a : PREC) (s s' : LKS) :
  mXycarSpeed s' = mXycarSpeed s -> sameSpeedParams s s' ->
  nextSpeed a s' = nextSpeed a s.
Proof.
  intros Hv (Hmax & Hmin & Hthr & Hacc & Hdec).
  unfold nextSpeed. rewrite Hv, Hmax, Hmin, Hthr, Hacc, Hdec. reflexivity.
Qed.

Lemma steer_speed (s : LKS) :
  mXycarSpeed (steer s) = mXycarSpeed s /\ sameSpeedParams s (steer s).
Proof. unfold steer, sameSpeedParams. cbn. repeat split. Qed.

(** Before [speedControl] is called in a turn of the loop, the speed and
    its parameters are those the turn started with. *)
Lemma before_speedControl (queue : list Image) (s : LKS) :
  let s2 := steer (snd (perceive (spinOnce queue s))) in
  mXycarSpeed s2 = mXycarSpeed s /\ sameSpeedParams s s2.
Proof.
  cbn zeta.
  destruct (spinOnce_speed queue s) as [V0 P0].
  destruct (perceive_speed (spinOnce queue s)) as (V1 & P1 & _).
  destruct (steer_speed (snd (perceive (spinOnce queue s)))) as [V2 P2].
  split; [congruence|].
  unfold sameSpeedParams in *.
  destruct P0 as (?&?&?&?&?), P1 as (?&?&?&?&?), P2 as (?&?&?&?&?).
  repeat split; congruence.
Qed.

(** C10. [speedControl] writes the speed member and nothing else, and
    [drive] writes no member: after both, the filter history, the stored
    frame, the detector, the Stanley controller, the two PID controllers
    and every configured parameter are what they were; publishing the
    message changes no member. *)
Theorem speedControl_drive_leave_rest (a : PREC) (s : LKS) :
  speedControl a s = set_mXycarSpeed (nextSpeed a s) s /\
  fst (drive a s) = s /\
  let s' := fst (drive a (speedControl a s)) in
  mMovingAverage s' = mMovingAverage s /\
  mFrame s' = mFrame s /\
  mHoughTransformLaneDetector s' = mHoughTransformLaneDetector s /\
  mStanley s' = mStanley s /\
  mSpeedPID s' = mSpeedPID s /\
  mPID s' = mPID s /\
  sameSpeedParams s s' /\
  mStanleyGain s' = mStanleyGain s /\
  mStanleyLookAheadDistance s' = mStanleyLookAheadDistance s /\
  mPublishingTopicName s' = mPublishingTopicName s /\
  mSubscribedTopicName s' = mSubscribedTopicName s /\
  mQueueSize s' = mQueueSize s /\
  mDebugging s' = mDebugging s.
Proof.
  split; [apply speedControl_assigns|].
  split; [reflexivity|].
  cbn zeta. rewrite speedControl_assigns. unfold sameSpeedParams. cbn.
  repeat split.
Qed.

(** C2. One call of [speedControl] sets the speed to a function of the
    previous speed, the steering angle and the configured constants. Above
    the threshold the new speed is the greater of the speed less the
    deceleration step and the minimum speed: the minimum where the
    difference is below it, the difference otherwise, and at least both.
    Otherwise, also when the magnitude of the angle equals the threshold,
    it is the smaller of the speed plus the acceleration step and the
    maximum speed: the maximum where the sum is above it, the sum
    otherwise, and at most both. At [double], with threshold 5,
    deceleration step 2 and minimum speed 3: from speed 10 an angle of 8 or
    of -8 gives 8, and from speed 4 it gives 3; with acceleration step 1
    and maximum speed 50, from speed 49.5 an angle of 2 gives 50, and from
    speed 10 an angle of 5 gives 11. *)
Theorem speedControl_update {laws : OrderLaws PREC} (a : PREC) (s : LKS) :
  mXycarSpeed (speedControl a s) = nextSpeed a s /\
  (prec_gt (prec_abs a) (mXycarSpeedControlThreshold s) = true ->
   (prec_lt (prec_sub (mXycarSpeed s) (mDecelerationStep s))
      (mXycarMinSpeed s) = true ->
    mXycarSpeed (speedControl a s) = mXycarMinSpeed s) /\
   (prec_lt (prec_sub (mXycarSpeed s) (mDecelerationStep s))
      (mXycarMinSpeed s) = false ->
    mXycarSpeed (speedControl a s)
    = prec_sub (mXycarSpeed s) (mDecelerationStep s)) /\
   (prec_le (prec_sub (mXycarSpeed s) (mDecelerationStep s))
      (prec_sub (mXycarSpeed s) (mDecelerationStep s)) = true ->
    prec_le (mXycarMinSpeed s) (mXycarMinSpeed s) = true ->
    prec_le (prec_sub (mXycarSpeed s) (mDecelerationStep s))
      (mXycarSpeed (speedControl a s)) = true /\
    prec_le (mXycarMinSpeed s) (mXycarSpeed (speedControl a s)) = true)) /\
  (prec_gt (prec_abs a) (mXycarSpeedControlThreshold s) = false ->
   (prec_lt (mXycarMaxSpeed s)
      (prec_add (mXycarSpeed s) (mAccelerationStep s)) = true ->
    mXycarSpeed (speedControl a s) = mXycarMaxSpeed s) /\
   (prec_lt (mXycarMaxSpeed s)
      (prec_add (mXycarSpeed s) (mAccelerationStep s)) = false ->
    mXycarSpeed (speedControl a s)
    = prec_add (mXycarSpeed s) (mAccelerationStep s)) /\
   (prec_le (prec_add (mXycarSpeed s) (mAccelerationStep s))
      (prec_add (mXycarSpeed s) (mAccelerationStep s)) = true ->
    prec_le (mXycarMaxSpeed s) (mXycarMaxSpeed s) = true ->
    prec_le (mXycarSpeed (speedControl a s))
      (prec_add (mXycarSpeed s) (mAccelerationStep s)) = true /\
    prec_le (mXycarSpeed (speedControl a s)) (mXycarMaxSpeed s) = true)) /\
  (prec_abs a = mXycarSpeedControlThreshold s ->
   prec_gt (prec_abs a) (mXycarSpeedControlThreshold s) = false) /\
  (forall s' : LKS,
      mXycarSpeed s' = mXycarSpeed s -> sameSpeedParams s s' ->
      mXycarSpeed (speedControl a s') = mXycarSpeed (speedControl a s)) /\
  (forall (history : SmoothingFilter.t) (l r : Z) (image : Mat)
          (raw maxSpeed accStep : float),
      mXycarSpeed
        (speedControl 8%float
           (Scenario.car history l r raw
              10%float maxSpeed 3%float 5%float accStep 2%float image))
      = 8%float /\
      mXycarSpeed
        (speedControl (-8)%float
           (Scenario.car history l r raw
              10%float maxSpeed 3%float 5%float accStep 2%float image))
      = 8%float /\
      mXycarSpeed
        (speedControl 8%float
           (Scenario.car history l r raw
              4%float maxSpeed 3%float 5%float accStep 2%float image))
      = 3%float) /\
  (forall (history : SmoothingFilter.t) (l r : Z) (image : Mat)
          (raw minSpeed decStep : float),
      mXycarSpeed
        (speedControl 2%float
           (Scenario.car history l r raw
              49.5%float 50%float minSpeed 5%float 1%float decStep image))
      = 50%float /\
      mXycarSpeed
        (speedControl 5%float
           (Scenario.car history l r raw
              10%float 50%float minSpeed 5%float 1%float decStep image))
      = 11%float).
Proof.
  rewrite speedControl_assigns. cbn [mXycarSpeed set_mXycarSpeed].
  split; [reflexivity|].
  unfold nextSpeed, std_max, std_min.
  split; [|split; [|split; [|split; [|split]]]].
  - intros ->. split; [intros ->; reflexivity|].
    split; [intros ->; reflexivity|].
    intros Hd Hm.
    destruct (prec_lt (prec_sub (mXycarSpeed s) (mDecelerationStep s))
                (mXycarMinSpeed s)) eqn:E.
    + split; [exact (prec_lt_le _ _ E) | exact Hm].
    + split; [exact Hd | exact (prec_nlt_le _ _ Hd Hm E)].
  - intros ->. split; [intros ->; reflexivity|].
    split; [intros ->; reflexivity|].
    intros Hu Hm.
    destruct (prec_lt (mXycarMaxSpeed s)
                (prec_add (mXycarSpeed s) (mAccelerationStep s))) eqn:E.
    + split; [exact (prec_lt_le _ _ E) | exact Hm].
    + split; [exact Hu | exact (prec_nlt_le _ _ Hm Hu E)].
  - intros <-. unfold prec_gt. apply prec_lt_irrefl.
  - intros s' Hv Hp. rewrite speedControl_assigns. cbn.
    apply nextSpeed_ext; assumption.
  - intros. repeat split.
  - intros. repeat split.
Qed.

End SpeedControllerFacts.

(** At [double], the deceleration stops at the minimum speed: from speed 4
    with deceleration step 2 and minimum speed 3, an angle of 8 above the
    threshold 5 gives 3, not 2. *)
Lemma speedControl_update_witness :
  mXycarSpeed
    (speedControl 8%float
       (Scenario.car (SmoothingFilter.new 10) 200 440 0%float
          4%float 50%float 3%float 5%float 1%float 2%float
          (Scenario.frame 640 480)))
  = 3%float.
Proof.
  destruct (speedControl_update (laws := DoubleFacts.double_order_laws)
    8%float
    (Scenario.car (SmoothingFilter.new 10) 200 440 0%float
          4%float 50%float 3%float 5%float 1%float 2%float
          (Scenario.frame 640 480))) as (_ & H & _).
  destruct (H eq_refl) as (Hmin & _).
  exact (Hmin eq_refl).
Defined.

(* ================================================================= *)
(** ** The loop *)

Section LoopFacts.
Context {PREC : Type} {ops : Precision PREC}.
Context {F S D : Type}.
Context {filter : MovingAverageFilter PREC F}.
Context {stanley : StanleyController PREC S}.
Context {detector : HoughTransformLaneDetector PREC D}.
Variable kXycarSteeringAangleLimit : Z.

Local Abbreviation LKS := (@LaneKeepingSystem PREC F S D).
Local Abbreviation k := kXycarSteeringAangleLimit.

Lemma run_app (queues1 queues2 : list (list Image)) (s : LKS) :
  run k (queues1 ++ queues2) s =
    let '(s1, out1) := run k queues1 s in
    let '(s2, out2) := run k queues2 s1 in
    (s2, out1 ++ out2).
Proof.
  revert s. induction queues1 as [|queue rest IH]; intro s; cbn [app run].
  - destruct (run k queues2 s). reflexivity.
  - destruct (run_body k queue s) as [s1 out1]. rewrite IH.
    destruct (run k rest s1) as [s2 out2].
    destruct (run k queues2 s2) as [s3 out3].
    rewrite app_assoc. reflexivity.
Qed.

Lemma run_idle (n : nat) (s : LKS) :
  Mat_empty (mFrame s) = true -> run k (repeat [] n) s = (s, []).
Proof.
  intro H. induction n as [|n IH]; cbn [repeat run].
  - reflexivity.
  - rewrite (run_body_idle k s H), IH. reflexivity.
Qed.

(** C5. As long as no frame has been stored and no image arrives, every
    turn of the loop is skipped: after any number of such turns every
    member (the filter, the speed, the Stanley controller, the detector
    among them) is what it was, and nothing has been published. The
    turn at which the first image arrives, if the image is not empty, is
    the first to publish, and it publishes one message. *)
Theorem run_skips_without_frame (n : nat) (s : LKS) :
  Mat_empty (mFrame s) = true ->
  run k (repeat [] n) s = (s, []) /\
  (forall image : Image,
      Mat_empty (cvtColor_RGB2BGR image) = false ->
      run k (repeat [] n ++ [[image]]) s =
        (fst (run_body k [image] s), snd (run_body k [image] s)) /\
      List.length (snd (run k (repeat [] n ++ [[image]]) s)) = 1%nat).
Proof.
  intro H. split; [exact (run_idle n s H)|].
  intros image Himage.
  assert (E : run k (repeat [] n ++ [[image]]) s =
              (fst (run_body k [image] s), snd (run_body k [image] s))).
  { rewrite run_app, (run_idle n s H). cbn [run].
    destruct (run_body k [image] s) as [s1 out1].
    rewrite app_nil_r. reflexivity. }
  split; [exact E|].
  rewrite E. cbn [snd].
  rewrite (run_body_active k [image] s Himage). reflexivity.
Qed.

(** C6. A turn of the loop that has a frame publishes exactly one message.
    [speedControl] has run before, with the clamped steering angle of the
    turn, and the speed it has set is the speed member at the end of the
    turn. Where the rounded angle and the rounded speed lie within the
    range of [int32_t], the message carries them: the angle is the rounded
    clamped steering angle, the speed the rounded speed as [speedControl]
    has just set it. At [double] the rounding of a value that stays within
    that range is to the nearest integer, and of two integers as near to
    the one of greater magnitude (for a [double] of mantissa [m] and
    negative exponent [e], the integer [N] with
    [N - 1/2 <= m * 2^e < N + 1/2], taken with the sign): 7.5 gives
    8, 2.5 gives 3, -2.5 gives -3, 7.25 gives 7, 7.75 gives 8, 0.5 gives 1,
    the greatest [double] below 0.5 gives 0. *)
Theorem run_body_publishes (queue : list Image) (s : LKS) :
  Mat_empty (mFrame (spinOnce queue s)) = false ->
  let s2 := steer (snd (perceive (spinOnce queue s))) in
  let a := steeringAngle k (stanley_getResult (mStanley s2)) in
  let v := mXycarSpeed (speedControl a s2) in
  List.length (snd (run_body k queue s)) = 1%nat /\
  v = nextSpeed a s /\
  mXycarSpeed (fst (run_body k queue s)) = v /\
  (in_int32 (prec_round a) = true -> in_int32 (prec_round v) = true ->
   snd (run_body k queue s) =
     [ {| angle := prec_to_int (prec_round a);
          speed := prec_to_int (prec_round v) |} ]) /\
  (forall (x : float) (sx : bool) (m : positive) (e : Z),
      Prim2SF x = S754_finite sx m e -> in_int32 (prec_round x) = true ->
      exists N : Z,
        prec_to_int (prec_round x) = (if sx then - N else N) /\
        0 <= N /\
        (0 <= e -> N = Z.pos m * 2 ^ e) /\
        (e < 0 ->
         2 * N * 2 ^ (- e) - 2 ^ (- e) <= 2 * Z.pos m
           < 2 * N * 2 ^ (- e) + 2 ^ (- e))) /\
  prec_to_int (prec_round 7.5%float) = 8 /\
  prec_to_int (prec_round 2.5%float) = 3 /\
  prec_to_int (prec_round (-2.5)%float) = -3 /\
  prec_to_int (prec_round 7.25%float) = 7 /\
  prec_to_int (prec_round (-7.25)%float) = -7 /\
  prec_to_int (prec_round 7.75%float) = 8 /\
  prec_to_int (prec_round 0.5%float) = 1 /\
  prec_to_int (prec_round (-0.5)%float) = -1 /\
  prec_to_int (prec_round 0x1.fffffffffffffp-2%float) = 0 /\
  prec_to_int (prec_round 2147483646.5%float) = 2147483647.
Proof.
  intros H s2 a v.
  rewrite (run_body_active k queue s H). cbn [fst snd].
  fold s2. fold a.
  destruct (before_speedControl queue s) as [Hv Hp]. fold s2 in Hv, Hp.
  assert (E : v = nextSpeed a s).
  { subst v. rewrite speedControl_assigns. cbn [mXycarSpeed set_mXycarSpeed].
    apply nextSpeed_ext; assumption. }
  split; [reflexivity|]. split; [exact E|].
  split.
  { destruct (debug_speed (fst (perceive (spinOnce queue s)))
                (estimatedPositionX (snd (perceive (spinOnce queue s))))
                (speedControl a s2)) as [Hd _].
    rewrite Hd. reflexivity. }
  split; [intros _ _; reflexivity|].
  split.
  { intros x sx m e Hx _. exact (DoubleRounding.round_nearest x sx m e Hx). }
  repeat split.
Qed.

End LoopFacts.

(** At [double]: the controller as constructed, three turns without an
    image. *)
Lemma run_skips_without_frame_witness :
  run 50 [[]; []; []]
    (LaneKeepingSystem_new
       (Scenario.config 10%float 50%float 3%float 5%float 1%float 2%float)
     : @LaneKeepingSystem float SmoothingFilter.t (Scenario.Law float)
         Scenario.Lanes)
  = (LaneKeepingSystem_new
       (Scenario.config 10%float 50%float 3%float 5%float 1%float 2%float),
     []).
Proof.
  apply (run_skips_without_frame 50 3
           (LaneKeepingSystem_new
              (Scenario.config 10%float 50%float 3%float 5%float 1%float
                 2%float)
            : @LaneKeepingSystem float SmoothingFilter.t (Scenario.Law float)
                Scenario.Lanes)).
  reflexivity.
Defined.

(** At [double]: a 640 by 480 frame is stored, the lanes are at 200 and
    440, the steering law answers 7.5 and the limit is 50; the speed is 10
    with threshold 5 and deceleration step 2.5, which leaves 7.5. One
    message, angle 8 and speed 8. *)
Lemma run_body_publishes_witness :
  snd (run_body 50 []
         (Scenario.car (SmoothingFilter.new 10) 200 440 7.5%float
            10%float 50%float 3%float 5%float 1%float 2.5%float
            (Scenario.frame 640 480)))
  = [ {| angle := 8; speed := 8 |} ].
Proof.
  destruct (run_body_publishes 50 []
         (Scenario.car (SmoothingFilter.new 10) 200 440 7.5%float
            10%float 50%float 3%float 5%float 1%float 2.5%float
            (Scenario.frame 640 480))) as (_ & _ & _ & H & _).
  - reflexivity.
  - rewrite H; reflexivity.
Defined.

(* ================================================================= *)
(** ** The steering angle *)

Section SteeringFacts.
Context {PREC : Type} {ops : Precision PREC} {laws : OrderLaws PREC}.
Variable kXycarSteeringAangleLimit : Z.

Local Abbreviation lo := (prec_of_int (- kXycarSteeringAangleLimit)).
Local Abbreviation hi := (prec_of_int kXycarSteeringAangleLimit).

(** Whatever the Stanley controller answers, a NaN included, the clamped
    angle lies between the two limits. *)
Lemma steeringAngle_within (raw : PREC) :
  prec_le lo hi = true ->
  within lo hi (steeringAngle kXycarSteeringAangleLimit raw) = true.
Proof.
  intro Hk. unfold steeringAngle, within, std_min, std_max.
  pose proof (prec_le_left _ _ Hk) as Hlo.
  pose proof (prec_le_right _ _ Hk) as Hhi.
  destruct (prec_lt hi raw) eqn:E1.
  - destruct (prec_lt lo hi) eqn:E2.
    + rewrite Hk, Hhi. reflexivity.
    + rewrite Hlo, Hk. reflexivity.
  - destruct (prec_lt lo raw) eqn:E2.
    + pose proof (prec_lt_le _ _ E2) as L.
      rewrite L. cbn.
      apply prec_nlt_le; [exact Hhi | exact (prec_le_right _ _ L) | exact E1].
    + rewrite Hlo, Hk. reflexivity.
Qed.

(** An answer strictly above the lower limit and not above the upper one
    is passed on as it is. *)
Lemma steeringAngle_inside (raw : PREC) :
  prec_lt lo raw = true -> prec_lt hi raw = false ->
  steeringAngle kXycarSteeringAangleLimit raw = raw.
Proof.
  intros H1 H2. unfold steeringAngle, std_min, std_max.
  rewrite H2, H1. reflexivity.
Qed.

(** An answer above the upper limit becomes the upper limit. *)
Lemma steeringAngle_above (raw : PREC) :
  prec_lt lo hi = true -> prec_lt hi raw = true ->
  steeringAngle kXycarSteeringAangleLimit raw = hi.
Proof.
  intros H1 H2. unfold steeringAngle, std_min, std_max.
  rewrite H2, H1. reflexivity.
Qed.

(** An answer below the lower limit becomes the lower limit. *)
Lemma steeringAngle_below (raw : PREC) :
  prec_le lo hi = true -> prec_lt raw lo = true ->
  steeringAngle kXycarSteeringAangleLimit raw = lo.
Proof.
  intros Hk H1. unfold steeringAngle, std_min, std_max.
  pose proof (prec_lt_le _ _ H1) as L.
  rewrite (prec_le_nlt _ _ (prec_le_trans _ _ _ L Hk)).
  rewrite (prec_le_nlt _ _ L). reflexivity.
Qed.

End SteeringFacts.

Section SteeringInLoop.
Context {PREC : Type} {ops : Precision PREC} {laws : OrderLaws PREC}.
Context {F S D : Type}.
Context {filter : MovingAverageFilter PREC F}.
Context {stanley : StanleyController PREC S}.
Context {detector : HoughTransformLaneDetector PREC D}.
Variable kXycarSteeringAangleLimit : Z.

Local Abbreviation LKS := (@LaneKeepingSystem PREC F S D).
Local Abbreviation k := kXycarSteeringAangleLimit.
Local Abbreviation lo := (prec_of_int (- kXycarSteeringAangleLimit)).
Local Abbreviation hi := (prec_of_int kXycarSteeringAangleLimit).

(** C1. In a turn of the loop that has a frame, the angle handed to
    [speedControl] and to [drive] is one and the same: the result of the
    Stanley controller clamped between minus the limit and the limit. It
    lies within the limits whatever the result is, equals the result when
    that lies inside, and equals the limit the result lies beyond. At
    [double] and on the rationals, with limit 50 and result 1000 the
    angle is 50, and at [double] the angle lies within -50 and 50 for
    every result, a NaN included. *)
Theorem steering_clamped (queue : list Image) (s : LKS) :
  prec_lt lo hi = true ->
  Mat_empty (mFrame (spinOnce queue s)) = false ->
  let s1 := perceive (spinOnce queue s) in
  let s2 := steer (snd s1) in
  let raw := stanley_getResult (mStanley s2) in
  let a := steeringAngle k raw in
  run_body k queue s =
    (debug (fst s1) (estimatedPositionX (snd s1)) (speedControl a s2),
     snd (drive a (speedControl a s2))) /\
  within lo hi a = true /\
  (prec_lt lo raw = true -> prec_lt hi raw = false -> a = raw) /\
  (prec_lt hi raw = true -> a = hi) /\
  (prec_lt raw lo = true -> a = lo) /\
  steeringAngle 50 1000%float = 50%float /\
  steeringAngle 50 (inject_Z 1000) = inject_Z 50 /\
  (forall x : float,
      within (-50)%float 50%float (steeringAngle 50 x) = true).
Proof.
  intros Hk H s1 s2 raw a.
  split; [exact (run_body_active k queue s H)|].
  split; [apply steeringAngle_within, prec_lt_le, Hk|].
  split; [apply steeringAngle_inside|].
  split; [apply steeringAngle_above, Hk|].
  split; [apply steeringAngle_below, prec_lt_le, Hk|].
  split; [reflexivity|]. split; [reflexivity|].
  intro x.
  exact (steeringAngle_within (laws := DoubleFacts.double_order_laws) 50 x
           eq_refl).
Qed.

End SteeringInLoop.

(** At [double]: a frame is stored and the steering law answers 1000;
    with limit 50 the message carries the angle 50. *)
Lemma steering_clamped_witness :
  map angle
    (snd (run_body 50 []
            (Scenario.car (SmoothingFilter.new 10) 200 440 1000%float
               10%float 50%float 3%float 5%float 1%float 2%float
               (Scenario.frame 640 480))))
  = [50].
Proof.
  destruct (steering_clamped (laws := DoubleFacts.double_order_laws) 50 []
            (Scenario.car (SmoothingFilter.new 10) 200 440 1000%float
               10%float 50%float 3%float 5%float 1%float 2%float
               (Scenario.frame 640 480))) as (H & _).
  - reflexivity.
  - reflexivity.
  - rewrite H. reflexivity.
Defined.

(* ================================================================= *)
(** ** The bounds of the speed *)

Section SpeedBounds.
Context {PREC : Type} {ops : Precision PREC} {laws : OrderLaws PREC}.
Context {F S D : Type}.
Context {filter : MovingAverageFilter PREC F}.
Context {stanley : StanleyController PREC S}.
Context {detector : HoughTransformLaneDetector PREC D}.
Variable kXycarSteeringAangleLimit : Z.
Variable config : Config PREC.

Local Abbreviation LKS := (@LaneKeepingSystem PREC F S D).
Local Abbreviation invariant := (speedInvariant config).
Local Abbreviation inBounds :=
  (within (MIN_SPEED config) (MAX_SPEED config)).

Hypothesis start_within : inBounds (START_SPEED config) = true.
Hypothesis deceleration_lowers : forall v : PREC,
    inBounds v = true ->
    prec_le (prec_sub v (DECELERATION_STEP config)) v = true.
Hypothesis acceleration_raises : forall v : PREC,
    inBounds v = true ->
    prec_le v (prec_add v (ACCELERATION_STEP config)) = true.

Lemma speedInvariant_new : invariant (LaneKeepingSystem_new config).
Proof. unfold speedInvariant. cbn. auto using start_within. Qed.

Lemma speedInvariant_moved (s s' : LKS) :
  mXycarSpeed s' = mXycarSpeed s -> sameSpeedParams s s' ->
  invariant s -> invariant s'.
Proof.
  intros Hv (Pmax & Pmin & _ & Pacc & Pdec) (Imax & Imin & Iacc & Idec & Iw).
  unfold speedInvariant.
  rewrite Hv, Pmax, Pmin, Pacc, Pdec. auto.
Qed.

Lemma speedInvariant_speedControl (a : PREC) (s : LKS) :
  invariant s -> invariant (speedControl a s).
Proof.
  intros (Imax & Imin & Iacc & Idec & Iw).
  rewrite speedControl_assigns. unfold speedInvariant.
  cbn [set_mXycarSpeed mXycarMaxSpeed mXycarMinSpeed mAccelerationStep
       mDecelerationStep mXycarSpeed].
  repeat (split; [assumption|]).
  pose proof (deceleration_lowers _ Iw) as Down.
  pose proof (acceleration_raises _ Iw) as Up.
  unfold within in *. apply andb_true_iff in Iw as [Lo Hi].
  pose proof (prec_le_trans _ _ _ Lo Hi) as MinMax.
  pose proof (prec_le_left _ _ MinMax) as MinMin.
  pose proof (prec_le_right _ _ MinMax) as MaxMax.
  unfold nextSpeed, std_max, std_min. rewrite Imax, Imin, Iacc, Idec.
  destruct (prec_gt (prec_abs a) (mXycarSpeedControlThreshold s)).
  - destruct (prec_lt (prec_sub (mXycarSpeed s) (DECELERATION_STEP config))
                (MIN_SPEED config)) eqn:E.
    + rewrite MinMin, MinMax. reflexivity.
    + apply andb_true_iff. split.
      * apply prec_nlt_le;
          [exact (prec_le_left _ _ Down) | exact MinMin | exact E].
      * exact (prec_le_trans _ _ _ Down Hi).
  - destruct (prec_lt (MAX_SPEED config)
                (prec_add (mXycarSpeed s) (ACCELERATION_STEP config))) eqn:E.
    + rewrite MaxMax, MinMax. reflexivity.
    + apply andb_true_iff. split.
      * exact (prec_le_trans _ _ _ Lo Up).
      * apply prec_nlt_le;
          [exact MaxMax | exact (prec_le_right _ _ Up) | exact E].
Qed.

Lemma speedInvariant_speedControls (angles : list PREC) (s : LKS) :
  invariant s -> invariant (speedControls angles s).
Proof.
  unfold speedControls. revert s.
  induction angles as [|a angles IH]; intros s I; cbn [fold_left].
  - exact I.
  - apply IH, speedInvariant_speedControl, I.
Qed.

Lemma speedInvariant_run_body (queue : list Image) (s : LKS) :
  invariant s ->
  invariant (fst (run_body kXycarSteeringAangleLimit queue s)).
Proof.
  intro I.
  destruct (Mat_empty (mFrame (spinOnce queue s))) eqn:E.
  - unfold run_body. rewrite E. cbn [fst].
    destruct (spinOnce_speed queue s) as [Hv Hp].
    exact (speedInvariant_moved Hv Hp I).
  - rewrite (run_body_active kXycarSteeringAangleLimit queue s E).
    cbn [fst].
    destruct (before_speedControl queue s) as [Hv Hp].
    match goal with
    | |- speedInvariant _ (debug ?l ?x ?t) =>
        destruct (debug_speed l x t) as [Dv Dp];
        apply (speedInvariant_moved Dv Dp)
    end.
    apply speedInvariant_speedControl.
    exact (speedInvariant_moved Hv Hp I).
Qed.

Lemma speedInvariant_run (queues : list (list Image)) (s : LKS) :
  invariant s ->
  invariant (fst (run kXycarSteeringAangleLimit queues s)).
Proof.
  revert s. induction queues as [|queue rest IH]; intros s I; cbn [run].
  - exact I.
  - pose proof (speedInvariant_run_body queue I) as I1.
    destruct (run_body kXycarSteeringAangleLimit queue s) as [s1 out1].
    cbn [fst] in I1. specialize (IH s1 I1).
    destruct (run kXycarSteeringAangleLimit rest s1) as [s2 out2].
    exact IH.
Qed.

(** At every instance of the template, [double] included: if the start
    speed lies within the bounds, subtracting the deceleration step does
    not raise a speed within the bounds and adding the acceleration step
    does not lower one, then the speed stays within the bounds. *)
Lemma speed_within_if_steps_monotone :
  (forall angles : list PREC,
      inBounds
        (mXycarSpeed (speedControls angles (LaneKeepingSystem_new config)))
      = true) /\
  (forall queues : list (list Image),
      inBounds
        (mXycarSpeed
           (fst (run kXycarSteeringAangleLimit queues
                   (LaneKeepingSystem_new config))))
      = true).
Proof.
  split.
  - intro angles.
    apply (speedInvariant_speedControls angles speedInvariant_new).
  - intro queues.
    apply (speedInvariant_run queues speedInvariant_new).
Qed.

End SpeedBounds.

Section DoubleSpeedBounds.
Context {F S D : Type}.
Context {filter : MovingAverageFilter float F}.
Context {stanley : StanleyController float S}.
Context {detector : HoughTransformLaneDetector float D}.
Variable kXycarSteeringAangleLimit : Z.
Variable config : Config float.

Local Abbreviation LKS := (@LaneKeepingSystem float F S D).

(** C3, amended. At [double], with a configuration where the start speed
    lies within the two speed bounds, neither step is negative, the
    deceleration step or the maximum speed is finite and the acceleration
    step or the minimum speed is finite: after any sequence of calls of
    [speedControl] on the controller as constructed, whatever the steering
    angles, the speed lies within the bounds; so it does after any number
    of turns of the loop, whatever the detector, the filter and the
    Stanley controller do. *)
Theorem speed_stays_within_bounds :
  within (MIN_SPEED config) (MAX_SPEED config) (START_SPEED config) = true ->
  prec_le 0%float (ACCELERATION_STEP config) = true ->
  prec_le 0%float (DECELERATION_STEP config) = true ->
  prec_lt (DECELERATION_STEP config) infinity = true \/
  prec_lt (MAX_SPEED config) infinity = true ->
  prec_lt (ACCELERATION_STEP config) infinity = true \/
  prec_lt neg_infinity (MIN_SPEED config) = true ->
  (forall angles : list float,
      within (MIN_SPEED config) (MAX_SPEED config)
        (mXycarSpeed
           (speedControls angles (LaneKeepingSystem_new config : LKS)))
      = true) /\
  (forall queues : list (list Image),
      within (MIN_SPEED config) (MAX_SPEED config)
        (mXycarSpeed
           (fst (run kXycarSteeringAangleLimit queues
                   (LaneKeepingSystem_new config : LKS))))
      = true).
Proof.
  intros Hstart Hacc Hdec Hdown Hup.
  apply (speed_within_if_steps_monotone
           (laws := DoubleFacts.double_order_laws)).
  - exact Hstart.
  - intros v Hv. apply DoubleRounding.step_down with
      (lo := MIN_SPEED config) (hi := MAX_SPEED config); assumption.
  - intros v Hv. apply DoubleRounding.step_up with
      (lo := MIN_SPEED config) (hi := MAX_SPEED config); assumption.
Qed.

End DoubleSpeedBounds.

(** At [double]: start speed 10 within 3 and 50, steps 1 and 2,
    threshold 5, and the steering angles 8, 0, -9, 30. *)
Lemma speed_stays_within_bounds_witness :
  within 3%float 50%float
    (mXycarSpeed
       (speedControls [8%float; 0%float; (-9)%float; 30%float]
          (LaneKeepingSystem_new
             (Scenario.config 10%float 50%float 3%float 5%float 1%float
                2%float)
           : @LaneKeepingSystem float SmoothingFilter.t (Scenario.Law float)
               Scenario.Lanes)))
  = true.
Proof.
  apply (speed_stays_within_bounds
           (F := SmoothingFilter.t) (S := Scenario.Law float)
           (D := Scenario.Lanes) 50
           (Scenario.config 10%float 50%float 3%float 5%float 1%float
              2%float)
           eq_refl eq_refl eq_refl (or_introl eq_refl) (or_introl eq_refl)).
Defined.

(** C3 as it stands fails: nothing keeps the configured start speed within
    the bounds. At [double], start speed 100 with bounds 3 and 50: one call
    of [speedControl] with steering angle 8 (threshold 5, deceleration step
    2) leaves the speed at 98, above the maximum. Nor does anything keep a
    step from being negative: from start speed 10 within 3 and 50, a
    deceleration step of -45 leads to 55. And where a bound and the step
    away from it are both infinite the speed becomes a NaN: start speed
    and maximum speed plus infinity, deceleration step plus infinity. *)
Lemma speed_leaves_bounds :
  (let s := speedControls [8%float]
              (LaneKeepingSystem_new
                 (Scenario.config 100%float 50%float 3%float 5%float 1%float
                    2%float)
               : @LaneKeepingSystem float SmoothingFilter.t
                   (Scenario.Law float) Scenario.Lanes) in
   mXycarSpeed s = 98%float /\
   within (mXycarMinSpeed s) (mXycarMaxSpeed s) (mXycarSpeed s) = false) /\
  (let s := speedControls [8%float]
              (LaneKeepingSystem_new
                 (Scenario.config 10%float 50%float 3%float 5%float 1%float
                    (-45)%float)
               : @LaneKeepingSystem float SmoothingFilter.t
                   (Scenario.Law float) Scenario.Lanes) in
   mXycarSpeed s = 55%float /\
   within (mXycarMinSpeed s) (mXycarMaxSpeed s) (mXycarSpeed s) = false) /\
  (let c := Scenario.config infinity infinity 3%float 5%float 1%float
              infinity in
   let s := speedControls [8%float]
              (LaneKeepingSystem_new c
               : @LaneKeepingSystem float SmoothingFilter.t
                   (Scenario.Law float) Scenario.Lanes) in
   within (MIN_SPEED c) (MAX_SPEED c) (START_SPEED c) = true /\
   prec_le (mXycarSpeed s) (mXycarSpeed s) = false /\
   within (mXycarMinSpeed s) (mXycarMaxSpeed s) (mXycarSpeed s) = false).
Proof. repeat split. Qed.

(** C8. Neither branch of [speedControl] looks at the opposite bound. At
    [double]: from a speed above the maximum, a call above the threshold
    gives the speed less the deceleration step, still above the maximum;
    from a speed below the minimum, a call at or below the threshold gives
    the speed plus the acceleration step, still below the minimum. *)
Theorem speedControl_one_sided :
  (exists (s : @LaneKeepingSystem float SmoothingFilter.t (Scenario.Law float)
                 Scenario.Lanes) (a : float),
      prec_lt (mXycarMaxSpeed s) (mXycarSpeed s) = true /\
      prec_gt (prec_abs a) (mXycarSpeedControlThreshold s) = true /\
      mXycarSpeed (speedControl a s)
        = prec_sub (mXycarSpeed s) (mDecelerationStep s) /\
      prec_lt (mXycarMaxSpeed s) (mXycarSpeed (speedControl a s)) = true) /\
  (exists (s : @LaneKeepingSystem float SmoothingFilter.t (Scenario.Law float)
                 Scenario.Lanes) (a : float),
      prec_lt (mXycarSpeed s) (mXycarMinSpeed s) = true /\
      prec_gt (prec_abs a) (mXycarSpeedControlThreshold s) = false /\
      mXycarSpeed (speedControl a s)
        = prec_add (mXycarSpeed s) (mAccelerationStep s) /\
      prec_lt (mXycarSpeed (speedControl a s)) (mXycarMinSpeed s) = true).
Proof.
  split.
  - exists (Scenario.car (SmoothingFilter.new 10) 200 440 0%float
              100%float 50%float 3%float 5%float 1%float 2%float
              (Scenario.frame 640 480)), 8%float.
    repeat split.
  - exists (Scenario.car (SmoothingFilter.new 10) 200 440 0%float
              0%float 50%float 3%float 5%float 1%float 2%float
              (Scenario.frame 640 480)), 5%float.
    repeat split.
Qed.

(* ================================================================= *)
(** ** The lane centre and the cross-track error *)

Lemma rem_bound_nonpos :
  forall a b : Z, a <= 0 -> 0 < b -> - b < Z.rem a b <= 0.
Proof.
  intros a b Ha Hb. pose proof (Z.rem_bound_pos (- a) b ltac:(lia) Hb) as B.
  rewrite Z.rem_opp_l in B by lia. lia.
Qed.

(** Within its range an [int32_t] is the integer it stands for, and
    every [int32_t] lies within that range. *)
Lemma int32_t_exact (z : Z) : INT32_MIN <= z <= INT32_MAX -> int32_t z = z.
Proof.
  unfold INT32_MIN, INT32_MAX, int32_t. intro H.
  rewrite Z.mod_small by lia. lia.
Qed.

Lemma int32_t_range (z : Z) : INT32_MIN <= int32_t z <= INT32_MAX.
Proof.
  unfold INT32_MIN, INT32_MAX, int32_t.
  pose proof (Z.mod_pos_bound (z + 2 ^ 31) (2 ^ 32) ltac:(lia)). lia.
Qed.

(** The midpoint of line 80 is the half of the sum, toward zero, where
    the sum lies within the range of [int32_t]. *)
Lemma lanePositionMidpoint_truncates (l r : Z) :
  INT32_MIN <= l + r <= INT32_MAX ->
  let m := lanePositionMidpoint l r in
  m = Z.quot (l + r) 2 /\
  (Z.even (l + r) = true -> 2 * m = l + r) /\
  (Z.odd (l + r) = true -> 2 * m = l + r - Z.sgn (l + r)) /\
  Z.abs (2 * m) <= Z.abs (l + r).
Proof.
  intro Hr. unfold lanePositionMidpoint. cbn zeta.
  rewrite (int32_t_exact Hr). set (t := l + r).
  pose proof (Z.quot_rem' t 2) as E.
  assert (H : Z.rem t 2 = 0 \/ Z.rem t 2 = Z.sgn t).
  { destruct (Z_lt_le_dec t 0).
    - pose proof (@rem_bound_nonpos t 2). lia.
    - pose proof (Z.rem_bound_pos t 2). lia. }
  split; [reflexivity|]. repeat split.
  - intro Ev. apply Z.even_spec in Ev. destruct Ev as [c Hc]. lia.
  - intro Od. apply Z.odd_spec in Od. destruct Od as [c Hc].
    destruct H as [H|H]; [|lia]. exfalso. lia.
  - lia.
Qed.

(** The midpoint is an [int32_t], whatever the sum. *)
Lemma lanePositionMidpoint_range (l r : Z) :
  INT32_MIN <= lanePositionMidpoint l r <= INT32_MAX.
Proof.
  unfold lanePositionMidpoint.
  pose proof (int32_t_range (l + r)) as B. set (t := int32_t (l + r)) in *.
  unfold INT32_MIN, INT32_MAX in *.
  pose proof (Z.quot_rem' t 2) as E.
  destruct (Z_lt_le_dec t 0).
  - pose proof (@rem_bound_nonpos t 2). lia.
  - pose proof (Z.rem_bound_pos t 2). lia.
Qed.

(** On the rationals, [static_cast<int32_t>] is the integer part toward
    zero. *)
Lemma exact_to_int_truncates (q : Q) :
  ((0 <= q ->
    inject_Z (prec_to_int q) <= q /\ q < inject_Z (prec_to_int q) + 1) /\
   (q <= 0 ->
    inject_Z (prec_to_int q) - 1 < q /\ q <= inject_Z (prec_to_int q)))%Q.
Proof.
  destruct q as [n d]. unfold Qle, Qlt. cbn. unfold Exact.to_int. cbn.
  pose proof (Z.quot_rem' n (Z.pos d)) as E.
  split; intro H.
  - pose proof (Z.rem_bound_pos n (Z.pos d)) as B. nia.
  - pose proof (@rem_bound_nonpos n (Z.pos d)) as B. nia.
Qed.

Section CentreFacts.
Context {PREC : Type} {ops : Precision PREC}.
Context {F S D : Type}.
Context {filter : MovingAverageFilter PREC F}.
Context {stanley : StanleyController PREC S}.
Context {detector : HoughTransformLaneDetector PREC D}.

Local Abbreviation LKS := (@LaneKeepingSystem PREC F S D).

Lemma perceive_filter (s : LKS) :
  mMovingAverage (snd (perceive s)) =
    addSample (lanePositionMidpoint (fst (fst (perceive s)))
                 (snd (fst (perceive s))))
      (mMovingAverage s) /\
  fst (perceive s) =
    fst (getLanePosition (mFrame s) (mHoughTransformLaneDetector s)) /\
  mStanley (snd (perceive s)) = mStanley s.
Proof.
  unfold perceive.
  destruct (getLanePosition (mFrame s) (mHoughTransformLaneDetector s))
    as [[l r] d].
  cbn. repeat split.
Qed.

(** C9. The sample given to the filter is the half of the sum of the two
    lane positions computed on [int32_t], toward zero: where the sum lies
    within the range of [int32_t], an even sum is halved exactly and an odd
    sum loses its half; the sample itself is always within that range.
    The frame centre in the error is the half of the frame width computed
    on integers, its floor for a width that is not negative; where the
    centre, the width, the difference and the sum of line 82 lie within
    the range of [int32_t], the error is the centre less the frame centre
    plus 6. Lanes at 200
    and 441 give 320, lanes at -1 and -2 give -1; beyond the range, lanes
    at 2147483647 and 1 give -1073741824, as the compiled code does. *)
Theorem midpoint_is_integer_division (s : LKS) :
  0 <= cols (mFrame s) ->
  let lanes := fst (getLanePosition (mFrame s) (mHoughTransformLaneDetector s)) in
  let m := lanePositionMidpoint (fst lanes) (snd lanes) in
  let s1 := snd (perceive s) in
  mMovingAverage s1 = addSample m (mMovingAverage s) /\
  m = Z.quot (int32_t (fst lanes + snd lanes)) 2 /\
  INT32_MIN <= m <= INT32_MAX /\
  (INT32_MIN <= fst lanes + snd lanes <= INT32_MAX ->
   m = Z.quot (fst lanes + snd lanes) 2 /\
   (Z.even (fst lanes + snd lanes) = true -> 2 * m = fst lanes + snd lanes) /\
   (Z.odd (fst lanes + snd lanes) = true ->
    2 * m = fst lanes + snd lanes - Z.sgn (fst lanes + snd lanes)) /\
   Z.abs (2 * m) <= Z.abs (fst lanes + snd lanes)) /\
  Z.quot (cols (mFrame s)) 2 = cols (mFrame s) / 2 /\
  (INT32_MIN <= estimatedPositionX s1 <= INT32_MAX ->
   cols (mFrame s) <= INT32_MAX ->
   INT32_MIN <= estimatedPositionX s1 - cols (mFrame s) / 2 ->
   estimatedPositionX s1 - cols (mFrame s) / 2 + 6 <= INT32_MAX ->
   errorFromMid s1
   = int32_t (int32_t (estimatedPositionX s1
                       - int32_t (cols (mFrame s) / 2)) + 6) /\
   errorFromMid s1 = estimatedPositionX s1 - cols (mFrame s) / 2 + 6) /\
  lanePositionMidpoint 200 441 = 320 /\
  lanePositionMidpoint (-1) (-2) = -1 /\
  lanePositionMidpoint (-200) (-441) = -320 /\
  lanePositionMidpoint 2147483647 1 = -1073741824.
Proof.
  intros Hc lanes m s1.
  destruct (perceive_filter s) as (Hf & Hl & _).
  destruct (perceive_speed s) as (_ & _ & Hm).
  assert (Hq : Z.quot (cols (mFrame s)) 2 = cols (mFrame s) / 2)
    by (apply Z.quot_div_nonneg; lia).
  split; [subst s1 m lanes; rewrite Hf, Hl; reflexivity|].
  split; [reflexivity|].
  split; [apply lanePositionMidpoint_range|].
  split; [exact (@lanePositionMidpoint_truncates (fst lanes) (snd lanes))|].
  split; [exact Hq|].
  split.
  - intros He Hw Hlo Hhi.
    assert (E : errorFromMid s1
                = estimatedPositionX s1 - cols (mFrame s) / 2 + 6).
    { unfold errorFromMid. subst s1. rewrite Hm, Hq. reflexivity. }
    split; [|exact E]. rewrite E.
    pose proof (Z.div_pos (cols (mFrame s)) 2 Hc ltac:(lia)) as Hh.
    assert (Bc : INT32_MIN <= cols (mFrame s) / 2 <= INT32_MAX).
    { split; [unfold INT32_MIN; lia|].
      apply Z.le_trans with (cols (mFrame s)); [|exact Hw].
      apply Z.div_le_upper_bound; lia. }
    rewrite (int32_t_exact Bc).
    assert (Be : INT32_MIN <= estimatedPositionX s1 - cols (mFrame s) / 2
                 <= INT32_MAX) by (unfold INT32_MAX in *; lia).
    rewrite (int32_t_exact Be).
    symmetry. apply int32_t_exact. unfold INT32_MIN in *. lia.
  - repeat split.
Qed.

(** C4, amended. After the sample of the turn has been added, the centre
    used for the error is the result of the filter converted to [int32_t],
    that is cut toward zero, not rounded to the nearest integer; the error
    made of it is what the Stanley controller is called with. On the
    rationals the conversion is the integer part toward zero; at [double]
    320.5 gives 320, 320.75 gives 320 and -320.5 gives -320. *)
Theorem centre_is_truncated (s : LKS) :
  let lanes := fst (getLanePosition (mFrame s) (mHoughTransformLaneDetector s)) in
  let s1 := snd (perceive s) in
  mMovingAverage s1 =
    addSample (lanePositionMidpoint (fst lanes) (snd lanes))
      (mMovingAverage s) /\
  estimatedPositionX s1 = prec_to_int (filter_getResult (mMovingAverage s1)) /\
  errorFromMid s1 =
    prec_to_int (filter_getResult (mMovingAverage s1))
    - Z.quot (cols (mFrame s)) 2 + 6 /\
  mStanley (steer s1) =
    calculateSteeringAngle (errorFromMid s1) (prec_of_int 0) (mXycarSpeed s)
      (mStanley s) /\
  (forall q : Q,
      ((0 <= q ->
        inject_Z (prec_to_int q) <= q /\ q < inject_Z (prec_to_int q) + 1) /\
       (q <= 0 ->
        inject_Z (prec_to_int q) - 1 < q /\ q <= inject_Z (prec_to_int q)))%Q) /\
  prec_to_int 320.5%float = 320 /\
  prec_to_int 320.75%float = 320 /\
  prec_to_int (-320.5)%float = -320.
Proof.
  intros lanes s1.
  destruct (perceive_filter s) as (Hf & Hl & Hs).
  destruct (perceive_speed s) as (Hv & _ & Hm).
  split; [subst s1 lanes; rewrite Hf, Hl; reflexivity|].
  split; [reflexivity|].
  split; [unfold errorFromMid, estimatedPositionX; subst s1; rewrite Hm;
          reflexivity|].
  split; [unfold steer; cbn [mStanley set_mStanley]; subst s1;
          rewrite Hs, Hv; reflexivity|].
  split; [exact exact_to_int_truncates|].
  repeat split.
Qed.

End CentreFacts.

(** At [double]: a frame 640 wide, lanes at 200 and 441. *)
Lemma midpoint_is_integer_division_witness :
  SmoothingFilter.mSamples
    (mMovingAverage
       (snd (perceive
               (Scenario.car (SmoothingFilter.new 10) 200 441 0%float
                  10%float 50%float 3%float 5%float 1%float 2%float
                  (Scenario.frame 640 480)))))
  = [320].
Proof.
  destruct (midpoint_is_integer_division
              (Scenario.car (SmoothingFilter.new 10) 200 441 0%float
                 10%float 50%float 3%float 5%float 1%float 2%float
                 (Scenario.frame 640 480))) as (H & _).
  - cbn. lia.
  - rewrite H. reflexivity.
Defined.

(** On the rationals: 641/2 is cut to 320. *)
Lemma centre_is_truncated_witness :
  (inject_Z (prec_to_int (641 # 2)) <= 641 # 2)%Q /\
  prec_to_int (641 # 2)%Q = 320.
Proof.
  destruct (centre_is_truncated
              (Scenario.car (SmoothingFilter.new 10) 200 441 (inject_Z 0)
                 (inject_Z 10) (inject_Z 50) (inject_Z 3) (inject_Z 5)
                 (inject_Z 1) (inject_Z 2) (Scenario.frame 640 480)))
    as (_ & _ & _ & _ & H & _).
  destruct (H (641 # 2)%Q) as [Hpos _].
  split; [apply Hpos; discriminate | reflexivity].
Defined.

(** C4 as it stands fails. At [double], with 320 in the history of the
    filter and lanes whose midpoint is 321, the mean is 320.5: the centre
    used is 320, where rounding to the nearest integer gives 321. *)
Lemma centre_is_not_rounded :
  let s1 :=
    snd (perceive
           (Scenario.car
              {| SmoothingFilter.mSampleSize := 10;
                 SmoothingFilter.mSamples := [320] |}
              321 321 0%float
              10%float 50%float 3%float 5%float 1%float 2%float
              (Scenario.frame 640 480))) in
  filter_getResult (mMovingAverage s1) = 320.5%float /\
  estimatedPositionX s1 = 320 /\
  prec_to_int (prec_round (filter_getResult (mMovingAverage s1) : float)) = 321 /\
  estimatedPositionX s1 <>
    prec_to_int (prec_round (filter_getResult (mMovingAverage s1) : float)).
Proof.
  repeat split. vm_compute. discriminate.
Qed.

(** The first sample of a filter is all it holds, whatever its capacity. *)
Lemma first_sample (sampleSize x : Z) :
  SmoothingFilter.add x (SmoothingFilter.new sampleSize) =
    {| SmoothingFilter.mSampleSize := sampleSize;
       SmoothingFilter.mSamples := [x] |}.
Proof.
  unfold SmoothingFilter.add, SmoothingFilter.new. cbn.
  destruct (sampleSize <=? 0); reflexivity.
Qed.

(** C7. At [double] and on the rationals: frame width 640, lanes at 200
    and 440, no sample in the filter yet. The sample added is 320, the
    result of the filter is 320, the centre is 320 and the error is
    320 - 320 + 6 = 6, which the steering law is called with. *)
Theorem scenario_error_is_6 (sampleSize : Z) :
  let s := Scenario.car (SmoothingFilter.new sampleSize) 200 440 0%float
             10%float 50%float 3%float 5%float 1%float 2%float
             (Scenario.frame 640 480) in
  let q := Scenario.car (SmoothingFilter.new sampleSize) 200 440 (inject_Z 0)
             (inject_Z 10) (inject_Z 50) (inject_Z 3) (inject_Z 5)
             (inject_Z 1) (inject_Z 2) (Scenario.frame 640 480) in
  lanePositionMidpoint 200 440 = 320 /\
  SmoothingFilter.mSamples (mMovingAverage (snd (perceive s))) = [320] /\
  filter_getResult (mMovingAverage (snd (perceive s))) = 320%float /\
  estimatedPositionX (snd (perceive s)) = 320 /\
  Z.quot (cols (mFrame (snd (perceive s)))) 2 = 320 /\
  errorFromMid (snd (perceive s)) = 6 /\
  Scenario.lastCall (mStanley (steer (snd (perceive s))))
    = Some (6, 0%float, 10%float) /\
  filter_getResult (mMovingAverage (snd (perceive q))) = inject_Z 320 /\
  errorFromMid (snd (perceive q)) = 6.
Proof.
  cbn zeta.
  unfold perceive, errorFromMid, estimatedPositionX, steer.
  cbn [Scenario.car getLanePosition Scenario.lanes Scenario.leftX
       Scenario.rightX mHoughTransformLaneDetector mMovingAverage mFrame
       mStanley mXycarSpeed set_mHoughTransformLaneDetector
       set_mMovingAverage set_mStanley snd fst addSample
       SmoothingFilter.filter].
  rewrite first_sample.
  repeat split.
Qed.

(* ================================================================= *)
(** * Further properties of the class *)

(** ** The frame slot and the turns of the loop *)

Section FrameSlot.
Context {PREC : Type} {ops : Precision PREC}.
Context {F S D : Type}.
Context {filter : MovingAverageFilter PREC F}.
Context {stanley : StanleyController PREC S}.
Context {detector : HoughTransformLaneDetector PREC D}.
Variable kXycarSteeringAangleLimit : Z.

Local Abbreviation LKS := (@LaneKeepingSystem PREC F S D).
Local Abbreviation k := kXycarSteeringAangleLimit.

(** An image with at least one pixel. *)
Definition visible (message : Image) : Prop :=
  Mat_empty (cvtColor_RGB2BGR message) = false.

Lemma set_mFrame_spinOnce (f : Mat) (queue : list Image) (s : LKS) :
  set_mFrame f (spinOnce queue s) = set_mFrame f s.
Proof.
  unfold spinOnce. revert s.
  induction queue as [|m queue IH]; intro s; cbn [fold_left].
  - reflexivity.
  - rewrite IH. reflexivity.
Qed.

Lemma spinOnce_snoc (queue : list Image) (m : Image) (s : LKS) :
  spinOnce (queue ++ [m]) s = imageCallback m s.
Proof.
  unfold spinOnce. rewrite fold_left_app. cbn [fold_left].
  unfold imageCallback. apply set_mFrame_spinOnce.
Qed.

(** X1. The frame slot keeps the last image only: whatever was waiting
    before it, the members after [ros::spinOnce()] are those after the
    callback on the last message alone; the frame has the height and the
    width of that message, and no other member has changed. *)
Theorem spinOnce_last_message (queue : list Image) (m : Image) (s : LKS) :
  spinOnce (queue ++ [m]) s = imageCallback m s /\
  spinOnce (queue ++ [m]) s = set_mFrame (cvtColor_RGB2BGR m) s /\
  rows (mFrame (spinOnce (queue ++ [m]) s)) = height m /\
  cols (mFrame (spinOnce (queue ++ [m]) s)) = width m.
Proof.
  rewrite spinOnce_snoc. repeat split.
Qed.

Lemma spinOnce_frame (queue : list Image) (s : LKS) :
  Mat_empty (mFrame s) = false -> Forall visible queue ->
  Mat_empty (mFrame (spinOnce queue s)) = false.
Proof.
  intros Hs Hq.
  destruct queue as [|m0 queue0]; [exact Hs|].
  destruct (@exists_last _ (m0 :: queue0)) as (queue' & m & E);
    [discriminate|].
  rewrite E in *.
  rewrite spinOnce_snoc. cbn [imageCallback mFrame set_mFrame].
  apply Forall_app in Hq as [_ Hm].
  inversion Hm; assumption.
Qed.

Lemma run_body_frame (queue : list Image) (s : LKS) :
  mFrame (fst (run_body k queue s)) = mFrame (spinOnce queue s).
Proof.
  destruct (Mat_empty (mFrame (spinOnce queue s))) eqn:E.
  - unfold run_body. rewrite E. reflexivity.
  - rewrite (run_body_active k queue s E). cbn [fst].
    unfold debug.
    destruct (mDebugging _); cbn [mFrame set_mHoughTransformLaneDetector];
      rewrite speedControl_assigns; cbn [mFrame set_mXycarSpeed];
      unfold steer; cbn [mFrame set_mStanley];
      apply perceive_speed.
Qed.

Lemma run_body_at_most_one (queue : list Image) (s : LKS) :
  (List.length (snd (run_body k queue s)) <= 1)%nat.
Proof.
  destruct (Mat_empty (mFrame (spinOnce queue s))) eqn:E.
  - unfold run_body. rewrite E. cbn. lia.
  - rewrite (run_body_active k queue s E). cbn. lia.
Qed.

(** X2. The loop never publishes more than one message in a turn. Once a
    frame is stored, and as long as the images that arrive have a pixel,
    no turn is skipped again: every turn publishes exactly one message,
    with a new image or with the stored frame once more, and a frame
    stays stored. *)
Theorem run_one_message_a_turn (queues : list (list Image)) (s : LKS) :
  (List.length (snd (run k queues s)) <= List.length queues)%nat /\
  (Mat_empty (mFrame s) = false ->
   Forall (Forall visible) queues ->
   List.length (snd (run k queues s)) = List.length queues /\
   Mat_empty (mFrame (fst (run k queues s))) = false).
Proof.
  split.
  - revert s. induction queues as [|queue rest IH]; intro s; cbn [run].
    + cbn. lia.
    + pose proof (run_body_at_most_one queue s) as H1.
      destruct (run_body k queue s) as [s1 out1].
      specialize (IH s1). destruct (run k rest s1) as [s2 out2].
      cbn [snd] in *. rewrite length_app. cbn [List.length]. lia.
  - revert s. induction queues as [|queue rest IH]; intros s Hs Hq; cbn [run].
    + split; [reflexivity | exact Hs].
    + inversion Hq as [|q r Hqueue Hrest]; subst.
      pose proof (spinOnce_frame s Hs Hqueue) as Hf.
      pose proof (run_body_frame queue s) as Hframe.
      pose proof (run_body_active k queue s Hf) as Hbody. cbn zeta in Hbody.
      destruct (run_body k queue s) as [s1 out1].
      cbn [fst] in Hframe. rewrite <- Hframe in Hf.
      destruct (IH s1 Hf Hrest) as [Hlen Hlast].
      destruct (run k rest s1) as [s2 out2].
      cbn [fst snd] in *. split; [|exact Hlast].
      rewrite length_app, Hlen.
      injection Hbody as _ ->. reflexivity.
Qed.

End FrameSlot.

(** At [double]: a stored frame, then three turns, the second of which
    brings two new images. *)
Lemma run_one_message_a_turn_witness :
  List.length
    (snd (run 50
            [ []; [ {| height := 2; width := 2; step := 6; data := [] |};
                    {| height := 1; width := 4; step := 12; data := [] |} ]; [] ]
            (Scenario.car (SmoothingFilter.new 10) 200 440 1000%float
               10%float 50%float 3%float 5%float 1%float 2%float
               (Scenario.frame 640 480))))
  = 3%nat.
Proof.
  destruct (run_one_message_a_turn 50
            [ []; [ {| height := 2; width := 2; step := 6; data := [] |};
                    {| height := 1; width := 4; step := 12; data := [] |} ]; [] ]
            (Scenario.car (SmoothingFilter.new 10) 200 440 1000%float
               10%float 50%float 3%float 5%float 1%float 2%float
               (Scenario.frame 640 480))) as (_ & H).
  destruct H as [H _].
  - reflexivity.
  - repeat constructor.
  - exact H.
Defined.

(* ================================================================= *)
(** ** What a turn feeds to the collaborators, and the debug flag *)

Section TurnFacts.
Context {PREC : Type} {ops : Precision PREC}.
Context {F S D : Type}.
Context {filter : MovingAverageFilter PREC F}.
Context {stanley : StanleyController PREC S}.
Context {detector : HoughTransformLaneDetector PREC D}.
Variable kXycarSteeringAangleLimit : Z.

Local Abbreviation LKS := (@LaneKeepingSystem PREC F S D).
Local Abbreviation k := kXycarSteeringAangleLimit.

(** The same members with another debug flag. *)
Definition set_mDebugging (v : bool) (s : LKS) : LKS :=
  {| mSpeedPID := mSpeedPID s; mPID := mPID s;
     mMovingAverage := mMovingAverage s;
     mHoughTransformLaneDetector := mHoughTransformLaneDetector s;
     mStanley := mStanley s;
     mPublishingTopicName := mPublishingTopicName s;
     mSubscribedTopicName := mSubscribedTopicName s;
     mQueueSize := mQueueSize s;
     mXycarSpeed := mXycarSpeed s;
     mXycarMaxSpeed := mXycarMaxSpeed s;
     mXycarMinSpeed := mXycarMinSpeed s;
     mXycarSpeedControlThreshold := mXycarSpeedControlThreshold s;
     mAccelerationStep := mAccelerationStep s;
     mDecelerationStep := mDecelerationStep s;
     mStanleyGain := mStanleyGain s;
     mStanleyLookAheadDistance := mStanleyLookAheadDistance s;
     mDebugging := v;
     mFrame := mFrame s |}.

Lemma spinOnce_members (queue : list Image) (s : LKS) :
  spinOnce queue s = set_mFrame (mFrame (spinOnce queue s)) s.
Proof.
  unfold spinOnce. revert s.
  induction queue as [|m queue IH]; intro s; cbn [fold_left].
  - destruct s; reflexivity.
  - rewrite IH at 1. unfold imageCallback. destruct s; reflexivity.
Qed.

Lemma spinOnce_set_mDebugging (b : bool) (queue : list Image) (s : LKS) :
  spinOnce queue (set_mDebugging b s) = set_mDebugging b (spinOnce queue s).
Proof.
  unfold spinOnce. revert s.
  induction queue as [|m queue IH]; intro s; cbn [fold_left].
  - reflexivity.
  - rewrite <- IH. reflexivity.
Qed.

Lemma perceive_set_mDebugging (b : bool) (s : LKS) :
  perceive (set_mDebugging b s) =
    (fst (perceive s), set_mDebugging b (snd (perceive s))).
Proof.
  unfold perceive. cbn [mFrame mHoughTransformLaneDetector set_mDebugging].
  destruct (getLanePosition (mFrame s) (mHoughTransformLaneDetector s))
    as [[l r] d].
  reflexivity.
Qed.

Lemma speedControl_set_mDebugging (b : bool) (a : PREC) (s : LKS) :
  speedControl a (set_mDebugging b s) = set_mDebugging b (speedControl a s).
Proof. rewrite !speedControl_assigns. reflexivity. Qed.

(** X3. The debug flag reaches the detector only: with the flag set or
    cleared, a turn publishes the same messages and leaves the same speed,
    filter, Stanley controller and frame. *)
Theorem debugging_changes_no_command (b : bool) (queue : list Image)
    (s : LKS) :
  let r := run_body k queue s in
  let r' := run_body k queue (set_mDebugging b s) in
  snd r' = snd r /\
  mXycarSpeed (fst r') = mXycarSpeed (fst r) /\
  mMovingAverage (fst r') = mMovingAverage (fst r) /\
  mStanley (fst r') = mStanley (fst r) /\
  mFrame (fst r') = mFrame (fst r).
Proof.
  cbn zeta.
  destruct (Mat_empty (mFrame (spinOnce queue s))) eqn:E.
  - unfold run_body. rewrite spinOnce_set_mDebugging.
    cbn [mFrame set_mDebugging]. rewrite E. repeat split.
  - rewrite (run_body_active k queue s E).
    rewrite (run_body_active k queue (set_mDebugging b s));
      [|rewrite spinOnce_set_mDebugging; exact E].
    rewrite spinOnce_set_mDebugging, perceive_set_mDebugging.
    cbn [fst snd].
    change (steer (set_mDebugging b (snd (perceive (spinOnce queue s)))))
      with (set_mDebugging b (steer (snd (perceive (spinOnce queue s))))).
    cbn [mStanley set_mDebugging].
    rewrite speedControl_set_mDebugging.
    split; [reflexivity|].
    unfold debug. cbn [mDebugging set_mDebugging].
    destruct b, (mDebugging _); repeat split.
Qed.

(** X4. In a turn with a frame the detector is asked once, about the frame
    that [ros::spinOnce()] left, the filter gets one sample, the midpoint
    of the two lanes, and the Stanley controller is called once: with the
    error, a heading of zero, and the speed as it was before the turn, not
    the one the turn publishes. *)
Theorem run_body_feeds (queue : list Image) (s : LKS) :
  Mat_empty (mFrame (spinOnce queue s)) = false ->
  let frame := mFrame (spinOnce queue s) in
  let lanes := fst (getLanePosition frame (mHoughTransformLaneDetector s)) in
  let s' := fst (run_body k queue s) in
  mMovingAverage s' =
    addSample (lanePositionMidpoint (fst lanes) (snd lanes))
      (mMovingAverage s) /\
  mStanley s' =
    calculateSteeringAngle
      (prec_to_int (filter_getResult (mMovingAverage s'))
       - Z.quot (cols frame) 2 + 6)
      (prec_of_int 0) (mXycarSpeed s) (mStanley s) /\
  mFrame s' = frame.
Proof.
  intros E frame lanes s'. subst s'.
  rewrite (run_body_active k queue s E). cbn [fst].
  set (s0 := spinOnce queue s).
  assert (E0 : s0 = set_mFrame frame s) by apply spinOnce_members.
  destruct (perceive_filter s0) as (Hf & Hl & Hs).
  destruct (perceive_speed s0) as (Hv & _ & Hm).
  assert (A : forall (l : Z * Z) (x : Z) (t : LKS),
             mMovingAverage (debug l x t) = mMovingAverage t /\
             mStanley (debug l x t) = mStanley t /\
             mFrame (debug l x t) = mFrame t).
  { intros l x t. unfold debug. destruct (mDebugging t); repeat split. }
  match goal with
  | |- context [debug ?l ?x ?t] => destruct (A l x t) as (-> & -> & ->)
  end.
  rewrite speedControl_assigns.
  cbn [mMovingAverage mStanley mFrame set_mXycarSpeed].
  unfold steer. cbn [mMovingAverage mStanley mFrame set_mStanley].
  unfold errorFromMid, estimatedPositionX.
  rewrite Hf, Hl, Hs, Hv, Hm.
  assert (P : mHoughTransformLaneDetector s0 = mHoughTransformLaneDetector s /\
              mMovingAverage s0 = mMovingAverage s /\
              mStanley s0 = mStanley s /\
              mXycarSpeed s0 = mXycarSpeed s /\
              mFrame s0 = frame).
  { rewrite E0. repeat split. }
  destruct P as (-> & -> & -> & -> & ->).
  repeat split.
Qed.

End TurnFacts.

(** At [double]: lanes at 200 and 440 on a frame 640 wide, speed 10; the
    steering law is called with error 6, heading 0 and speed 10, while the
    message of the turn carries speed 8. *)
Lemma run_body_feeds_witness :
  let r := run_body 50 []
             (Scenario.car (SmoothingFilter.new 10) 200 440 1000%float
                10%float 50%float 3%float 5%float 1%float 2%float
                (Scenario.frame 640 480)) in
  Scenario.lastCall (mStanley (fst r)) = Some (6, 0%float, 10%float) /\
  map speed (snd r) = [8].
Proof.
  destruct (run_body_feeds 50 []
             (Scenario.car (SmoothingFilter.new 10) 200 440 1000%float
                10%float 50%float 3%float 5%float 1%float 2%float
                (Scenario.frame 640 480))) as (_ & H & _).
  - reflexivity.
  - cbn zeta. rewrite H. split; reflexivity.
Defined.

(* ================================================================= *)
(** ** The clamp of the steering angle, once more *)

Section ClampFacts.
Context {PREC : Type} {ops : Precision PREC} {laws : OrderLaws PREC}.
Context {F S D : Type}.
Context {filter : MovingAverageFilter PREC F}.
Context {stanley : StanleyController PREC S}.
Context {detector : HoughTransformLaneDetector PREC D}.
Variable kXycarSteeringAangleLimit : Z.

Local Abbreviation LKS := (@LaneKeepingSystem PREC F S D).
Local Abbreviation k := kXycarSteeringAangleLimit.
Local Abbreviation lo := (prec_of_int (- kXycarSteeringAangleLimit)).
Local Abbreviation hi := (prec_of_int kXycarSteeringAangleLimit).

(** X5. Clamping a clamped angle changes nothing: the clamp of line 86 gives
    the same value when it is applied to its own result. *)
Theorem steeringAngle_idempotent (raw : PREC) :
  prec_le lo hi = true ->
  steeringAngle k (steeringAngle k raw) = steeringAngle k raw.
Proof.
  intro Hk.
  pose proof (prec_le_nlt _ _ Hk) as Hhl.
  unfold steeringAngle, std_min, std_max.
  destruct (prec_lt hi raw) eqn:E1.
  - destruct (prec_lt lo hi) eqn:E2.
    + rewrite prec_lt_irrefl, E2. reflexivity.
    + rewrite Hhl, prec_lt_irrefl. reflexivity.
  - destruct (prec_lt lo raw) eqn:E2.
    + rewrite E1, E2. reflexivity.
    + rewrite Hhl, prec_lt_irrefl. reflexivity.
Qed.

(** X6. A result of the Stanley controller that is not comparable with itself,
    a NaN, is clamped to the lower limit: the turn steers by minus the
    limit, and that is the angle it publishes. *)
Theorem steeringAngle_of_nan (queue : list Image) (s : LKS) :
  let s2 := steer (snd (perceive (spinOnce queue s))) in
  let raw := stanley_getResult (mStanley s2) in
  Mat_empty (mFrame (spinOnce queue s)) = false ->
  prec_le raw raw = false ->
  steeringAngle k raw = lo /\
  map angle (snd (run_body k queue s)) = [prec_to_int (prec_round lo)].
Proof.
  intros s2 raw E Hnan.
  assert (A : steeringAngle k raw = lo).
  { unfold steeringAngle, std_min, std_max.
    destruct (prec_lt hi raw) eqn:E1.
    - pose proof (prec_le_right _ _ (prec_lt_le _ _ E1)). congruence.
    - destruct (prec_lt lo raw) eqn:E2; [|reflexivity].
      pose proof (prec_le_right _ _ (prec_lt_le _ _ E2)). congruence. }
  split; [exact A|].
  rewrite (run_body_active k queue s E). cbn [snd drive map angle].
  fold s2. fold raw. rewrite A. reflexivity.
Qed.

End ClampFacts.

(** At [double], limit 50: the clamp applied twice to 1000. *)
Lemma steeringAngle_idempotent_witness :
  steeringAngle 50 (steeringAngle 50 1000%float) = 50%float.
Proof.
  rewrite (steeringAngle_idempotent (laws := DoubleFacts.double_order_laws)
             50 1000%float eq_refl).
  reflexivity.
Defined.

(** At [double], limit 50: the steering law answers NaN, and the message
    carries the angle -50. *)
Lemma steeringAngle_of_nan_witness :
  map angle
    (snd (run_body 50 []
            (Scenario.car (SmoothingFilter.new 10) 200 440 nan
               10%float 50%float 3%float 5%float 1%float 2%float
               (Scenario.frame 640 480))))
  = [-50].
Proof.
  destruct (steeringAngle_of_nan (laws := DoubleFacts.double_order_laws) 50 []
            (Scenario.car (SmoothingFilter.new 10) 200 440 nan
               10%float 50%float 3%float 5%float 1%float 2%float
               (Scenario.frame 640 480))) as (_ & H).
  - reflexivity.
  - reflexivity.
  - rewrite H. reflexivity.
Defined.

(* ================================================================= *)
(** ** The speed controller at [double] *)

Module DoubleSpeed.

Lemma abs_opp (a : float) : PrimFloat.abs (PrimFloat.opp a) = PrimFloat.abs a.
Proof.
  rewrite <- (SF2Prim_Prim2SF (PrimFloat.abs (PrimFloat.opp a))).
  rewrite <- (SF2Prim_Prim2SF (PrimFloat.abs a)).
  rewrite !abs_spec, opp_spec.
  destruct (Prim2SF a); reflexivity.
Qed.

Lemma nan_not_above (a t : float) :
  PrimFloat.leb a a = false -> PrimFloat.ltb t (PrimFloat.abs a) = false.
Proof.
  rewrite leb_spec, ltb_spec, abs_spec. unfold SFleb, SFltb.
  destruct (Prim2SF a) as [sa|sa| |sa ma ea]; cbn.
  - discriminate.
  - destruct sa; discriminate.
  - intros _. destruct (Prim2SF t); reflexivity.
  - rewrite Z.compare_refl.
    change (PosDef.Pos.compare_cont Eq ma ma) with (Pos.compare ma ma).
    rewrite Pos.compare_refl. destruct sa; discriminate.
Qed.

Section WithCollaborators.
Context {F S D : Type}.

Local Abbreviation LKS := (@LaneKeepingSystem float F S D).

(** X7. [speedControl] looks at the magnitude of the angle only: a turn to
    the left and the same turn to the right leave the same members. *)
Theorem speedControl_sign (a : float) (s : LKS) :
  speedControl (PrimFloat.opp a) s = speedControl a s.
Proof.
  rewrite !speedControl_assigns. unfold nextSpeed.
  cbn [prec_abs Double.prec_double]. rewrite abs_opp. reflexivity.
Qed.

(** X8. A steering angle that is a NaN is not above any threshold:
    [speedControl] takes the accelerating branch. *)
Theorem speedControl_of_nan (a : float) (s : LKS) :
  PrimFloat.leb a a = false ->
  mXycarSpeed (speedControl a s) =
    std_min (PrimFloat.add (mXycarSpeed s) (mAccelerationStep s))
      (mXycarMaxSpeed s).
Proof.
  intro H. rewrite speedControl_assigns. cbn [mXycarSpeed set_mXycarSpeed].
  unfold nextSpeed, prec_gt. cbn [prec_abs prec_lt Double.prec_double].
  rewrite (nan_not_above (mXycarSpeedControlThreshold s) H). reflexivity.
Qed.

End WithCollaborators.

End DoubleSpeed.

(** At [double]: speed 10, acceleration step 1, and a NaN for an angle;
    the speed becomes 11. *)
Lemma speedControl_of_nan_witness :
  mXycarSpeed
    (speedControl nan
       (Scenario.car (SmoothingFilter.new 10) 200 440 0%float
          10%float 50%float 3%float 5%float 1%float 2%float
          (Scenario.frame 640 480)))
  = 11%float.
Proof.
  rewrite (DoubleSpeed.speedControl_of_nan (a := nan)
       (Scenario.car (SmoothingFilter.new 10) 200 440 0%float
          10%float 50%float 3%float 5%float 1%float 2%float
          (Scenario.frame 640 480)) eq_refl).
  reflexivity.
Defined.

(* ================================================================= *)
(** ** One step at a time *)

Module DoubleStep.

Section WithCollaborators.
Context {F S D : Type}.

Local Abbreviation LKS := (@LaneKeepingSystem float F S D).

(** The steering angle is not above the threshold of the controller. *)
Definition straight (s : LKS) (a : float) : Prop :=
  prec_gt (prec_abs a) (mXycarSpeedControlThreshold s) = false.

(** The steering angle is above the threshold of the controller. *)
Definition sharp (s : LKS) (a : float) : Prop :=
  prec_gt (prec_abs a) (mXycarSpeedControlThreshold s) = true.

(** The speed is within the bounds, no step is negative, and no step is
    infinite along with the bound it leads away from. *)
Definition rampable (s : LKS) : Prop :=
  within (mXycarMinSpeed s) (mXycarMaxSpeed s) (mXycarSpeed s) = true /\
  prec_le 0%float (mAccelerationStep s) = true /\
  prec_le 0%float (mDecelerationStep s) = true /\
  (prec_lt (mDecelerationStep s) infinity = true \/
   prec_lt (mXycarMaxSpeed s) infinity = true) /\
  (prec_lt (mAccelerationStep s) infinity = true \/
   prec_lt neg_infinity (mXycarMinSpeed s) = true).

Lemma one_step (a : float) (s : LKS) :
  rampable s ->
  let v := mXycarSpeed s in
  let v' := mXycarSpeed (speedControl a s) in
  (sharp s a ->
   prec_le (prec_sub v (mDecelerationStep s)) v' = true /\
   prec_le (mXycarMinSpeed s) v' = true /\
   prec_le v' v = true) /\
  (straight s a ->
   prec_le v v' = true /\
   prec_le v' (mXycarMaxSpeed s) = true /\
   prec_le v' (prec_add v (mAccelerationStep s)) = true).
Proof.
  intros (Hw & Hacc & Hdec & Hdown & Hup) v v'. subst v v'.
  rewrite speedControl_assigns. cbn [mXycarSpeed set_mXycarSpeed].
  pose proof (DoubleRounding.step_down _ _ _ _ Hdec Hdown Hw) as Down.
  pose proof (DoubleRounding.step_up _ _ _ _ Hacc Hup Hw) as Up.
  unfold within in Hw. apply andb_true_iff in Hw as [Lo Hi].
  pose proof DoubleFacts.double_order_laws as laws.
  change (prec_le (prec_sub (mXycarSpeed s) (mDecelerationStep s))
            (mXycarSpeed s) = true) in Down.
  change (prec_le (mXycarSpeed s)
            (prec_add (mXycarSpeed s) (mAccelerationStep s)) = true) in Up.
  unfold nextSpeed, std_max, std_min, sharp, straight.
  split; intros ->.
  - destruct (prec_lt (prec_sub (mXycarSpeed s) (mDecelerationStep s))
                (mXycarMinSpeed s)) eqn:E.
    + split; [exact (prec_lt_le _ _ E)|].
      split; [exact (prec_le_left _ _ Lo) | exact Lo].
    + split; [exact (prec_le_left _ _ Down)|]. split; [|exact Down].
      exact (prec_nlt_le _ _ (prec_le_left _ _ Down) (prec_le_left _ _ Lo) E).
  - destruct (prec_lt (mXycarMaxSpeed s)
                (prec_add (mXycarSpeed s) (mAccelerationStep s))) eqn:E.
    + split; [exact Hi|].
      split; [exact (prec_le_right _ _ Hi) | exact (prec_lt_le _ _ E)].
    + split; [exact Up|]. split; [|exact (prec_le_right _ _ Up)].
      exact (prec_nlt_le _ _ (prec_le_right _ _ Hi) (prec_le_right _ _ Up) E).
Qed.

(** X9. At [double], with a speed within the bounds, steps that are not
    negative and no step infinite along with the bound it leads away
    from, a call of [speedControl] moves the speed by one step at most and
    never the wrong way: above the threshold the new speed lies between the
    speed less the deceleration step and the speed, otherwise between the
    speed and the speed plus the acceleration step. *)
Theorem speedControl_one_step (a : float) (s : LKS) :
  within (mXycarMinSpeed s) (mXycarMaxSpeed s) (mXycarSpeed s) = true ->
  prec_le 0%float (mAccelerationStep s) = true ->
  prec_le 0%float (mDecelerationStep s) = true ->
  prec_lt (mDecelerationStep s) infinity = true \/
  prec_lt (mXycarMaxSpeed s) infinity = true ->
  prec_lt (mAccelerationStep s) infinity = true \/
  prec_lt neg_infinity (mXycarMinSpeed s) = true ->
  let v := mXycarSpeed s in
  let v' := mXycarSpeed (speedControl a s) in
  (prec_gt (prec_abs a) (mXycarSpeedControlThreshold s) = true ->
   prec_le (prec_sub v (mDecelerationStep s)) v' = true /\
   prec_le v' v = true) /\
  (prec_gt (prec_abs a) (mXycarSpeedControlThreshold s) = false ->
   prec_le v v' = true /\
   prec_le v' (prec_add v (mAccelerationStep s)) = true).
Proof.
  intros Hw Hacc Hdec Hdown Hup.
  destruct (@one_step a s (conj Hw (conj Hacc (conj Hdec (conj Hdown Hup)))))
    as [Hs Hn].
  cbn zeta. split; intro H.
  - destruct (Hs H) as (? & _ & ?). auto.
  - destruct (Hn H) as (? & _ & ?). auto.
Qed.

Lemma rampable_speedControl (a : float) (s : LKS) :
  rampable s -> rampable (speedControl a s).
Proof.
  intro R. pose proof (@one_step a s R) as [Hs Hn].
  destruct R as (Hw & Hacc & Hdec & Hdown & Hup).
  unfold within in Hw. apply andb_true_iff in Hw as [Lo Hi].
  pose proof DoubleFacts.double_order_laws as laws.
  assert (W : within (mXycarMinSpeed s) (mXycarMaxSpeed s)
                (mXycarSpeed (speedControl a s)) = true).
  { unfold within. apply andb_true_iff.
    destruct (prec_gt (prec_abs a) (mXycarSpeedControlThreshold s)) eqn:E.
    - destruct (Hs E) as (_ & Hmin & Hv).
      split; [exact Hmin | exact (prec_le_trans _ _ _ Hv Hi)].
    - destruct (Hn E) as (Hv & Hmax & _).
      split; [exact (prec_le_trans _ _ _ Lo Hv) | exact Hmax]. }
  revert W. rewrite speedControl_assigns. unfold rampable. cbn.
  intro W. repeat split; assumption.
Qed.

(** X11. At [double], under the same conditions, a run of turns straight
    ahead never lowers the speed and never takes it above the maximum, and
    a run of sharp turns never raises it and never takes it below the
    minimum; so a speed equal to a bound stays equal to it as long as the
    turns lead toward that bound. *)
Theorem ramp_is_monotone (angles : list float) (s : LKS) :
  within (mXycarMinSpeed s) (mXycarMaxSpeed s) (mXycarSpeed s) = true ->
  prec_le 0%float (mAccelerationStep s) = true ->
  prec_le 0%float (mDecelerationStep s) = true ->
  prec_lt (mDecelerationStep s) infinity = true \/
  prec_lt (mXycarMaxSpeed s) infinity = true ->
  prec_lt (mAccelerationStep s) infinity = true \/
  prec_lt neg_infinity (mXycarMinSpeed s) = true ->
  let v' := mXycarSpeed (speedControls angles s) in
  (Forall (straight s) angles ->
   prec_le (mXycarSpeed s) v' = true /\
   prec_le v' (mXycarMaxSpeed s) = true) /\
  (Forall (sharp s) angles ->
   prec_le (mXycarMinSpeed s) v' = true /\
   prec_le v' (mXycarSpeed s) = true).
Proof.
  intros Hw Hacc Hdec Hdown Hup. cbn zeta.
  assert (R : rampable s) by (repeat split; assumption).
  clear Hw Hacc Hdec Hdown Hup.
  pose proof DoubleFacts.double_order_laws as laws.
  unfold speedControls. split; intro Hall.
  - revert s R Hall.
    induction angles as [|a angles IH]; intros s R Hall; cbn [fold_left].
    + destruct R as (Hw & _). unfold within in Hw.
      apply andb_true_iff in Hw as [Lo Hi].
      split; [exact (prec_le_right _ _ Lo) | exact Hi].
    + inversion Hall as [|? ? Ha Hrest]; subst.
      destruct (@one_step a s R) as [_ Hn].
      destruct (Hn Ha) as (Hv & _ & _).
      destruct (IH (speedControl a s) (@rampable_speedControl a s R))
        as [I1 I2].
      * revert Hrest. apply Forall_impl. intro b. unfold straight.
        rewrite speedControl_assigns. cbn. auto.
      * assert (Emax : mXycarMaxSpeed (speedControl a s) = mXycarMaxSpeed s)
          by (rewrite speedControl_assigns; reflexivity).
        rewrite Emax in I2.
        split; [exact (prec_le_trans _ _ _ Hv I1) | exact I2].
  - revert s R Hall.
    induction angles as [|a angles IH]; intros s R Hall; cbn [fold_left].
    + destruct R as (Hw & _). unfold within in Hw.
      apply andb_true_iff in Hw as [Lo Hi].
      split; [exact Lo | exact (prec_le_right _ _ Lo)].
    + inversion Hall as [|? ? Ha Hrest]; subst.
      destruct (@one_step a s R) as [Hs _].
      destruct (Hs Ha) as (_ & _ & Hv).
      destruct (IH (speedControl a s) (@rampable_speedControl a s R))
        as [I1 I2].
      * revert Hrest. apply Forall_impl. intro b. unfold sharp.
        rewrite speedControl_assigns. cbn. auto.
      * assert (Emin : mXycarMinSpeed (speedControl a s) = mXycarMinSpeed s)
          by (rewrite speedControl_assigns; reflexivity).
        rewrite Emin in I1.
        split; [exact I1 | exact (prec_le_trans _ _ _ I2 Hv)].
Qed.

End WithCollaborators.

End DoubleStep.

(** At [double]: speed 4 within 3 and 50, deceleration step 2, an angle of
    8 above the threshold 5; the new speed 3 lies between 2 and 4. *)
Lemma speedControl_one_step_witness :
  let s := Scenario.car (SmoothingFilter.new 10) 200 440 0%float
             4%float 50%float 3%float 5%float 1%float 2%float
             (Scenario.frame 640 480) in
  prec_le 2%float (mXycarSpeed (speedControl 8%float s)) = true /\
  prec_le (mXycarSpeed (speedControl 8%float s)) 4%float = true.
Proof.
  cbn zeta.
  destruct (@DoubleStep.speedControl_one_step _ _ _ 8%float
              (Scenario.car (SmoothingFilter.new 10) 200 440 0%float
                 4%float 50%float 3%float 5%float 1%float 2%float
                 (Scenario.frame 640 480))
              eq_refl eq_refl eq_refl (or_introl eq_refl)
              (or_introl eq_refl)) as [H _].
  exact (H eq_refl).
Defined.

(** At [double]: from speed 2^53 with step 1 and maximum 2^53 + 2, five
    turns straight ahead leave a speed that is not below 2^53 and not above
    the maximum; the steps are lost in the rounding and it is 2^53
    still. *)
Lemma ramp_is_monotone_witness :
  let s := Scenario.car (SmoothingFilter.new 10) 200 440 0%float
             9007199254740992%float 9007199254740994%float 3%float 5%float
             1%float 2%float (Scenario.frame 640 480) in
  let v' := mXycarSpeed
              (speedControls [0%float; 1%float; (-2)%float; 5%float; 0%float]
                 s) in
  (prec_le 9007199254740992%float v' = true /\
   prec_le v' 9007199254740994%float = true) /\
  v' = 9007199254740992%float.
Proof.
  cbn zeta. split; [|reflexivity].
  destruct (@DoubleStep.ramp_is_monotone _ _ _
           [0%float; 1%float; (-2)%float; 5%float; 0%float]
           (Scenario.car (SmoothingFilter.new 10) 200 440 0%float
              9007199254740992%float 9007199254740994%float 3%float 5%float
              1%float 2%float (Scenario.frame 640 480))
           eq_refl eq_refl eq_refl (or_introl eq_refl) (or_introl eq_refl))
    as [H _].
  apply H. repeat (apply Forall_cons; [reflexivity|]). apply Forall_nil.
Defined.

(* ================================================================= *)
(** ** Construction *)

Section ConstructionFacts.
Context {PREC : Type} {ops : Precision PREC}.
Context {F S D : Type}.
Context {filter : MovingAverageFilter PREC F}.
Context {stanley : StanleyController PREC S}.
Context {detector : HoughTransformLaneDetector PREC D}.
Variable kXycarSteeringAangleLimit : Z.

Local Abbreviation LKS := (@LaneKeepingSystem PREC F S D).

(** X10. A controller as constructed holds the configuration: the Stanley
    controller is made from the two gains of the configuration, which
    [setParams] has stored by then, the filter from the sample size, the
    speed is the start speed. Its frame slot is empty, so that the loop
    publishes nothing and changes nothing for as many turns as no image
    arrives. *)
Theorem LaneKeepingSystem_new_configured (config : Config PREC) (n : nat) :
  let s : LKS := LaneKeepingSystem_new config in
  mStanley s = stanley_new (K_GAIN config) (LOOK_AHREAD_DISTANCE config) /\
  mMovingAverage s = filter_new (SAMPLE_SIZE config) /\
  mHoughTransformLaneDetector s = detector_new config /\
  mXycarSpeed s = START_SPEED config /\
  mXycarMaxSpeed s = MAX_SPEED config /\
  mXycarMinSpeed s = MIN_SPEED config /\
  mAccelerationStep s = ACCELERATION_STEP config /\
  mDecelerationStep s = DECELERATION_STEP config /\
  mXycarSpeedControlThreshold s = SPEED_CONTROL_THRESHOLD config /\
  mDebugging s = DEBUG config /\
  run kXycarSteeringAangleLimit (repeat [] n) s = (s, []).
Proof.
  cbn zeta. repeat split.
  apply run_idle. reflexivity.
Qed.

End ConstructionFacts.

(* ================================================================= *)
(** ** The published angle at [double] *)

Module DoubleAngle.

(** The limit [k] as a [double] is a normal number with a negative
    exponent that stands for [k] exactly. *)
Definition limit_shape (k : Z) : bool :=
  match Prim2SF (Double.of_int k) with
  | S754_finite false mb eb =>
      (eb <? 0) && (Z.pos mb =? k * 2 ^ (- eb)) && (2 ^ 52 <=? Z.pos mb)
  | _ => false
  end.

(** [n] and [-n] as a [double] convert back to [n] and [-n]. *)
Definition exact_int (n : Z) : bool :=
  (Double.to_int (Double.of_int n) =? n) &&
  (Double.to_int (PrimFloat.opp (Double.of_int n)) =? - n).

(** The integers from 0 to [K]. *)
Definition upto (K : nat) : list Z := map Z.of_nat (seq 0 (Datatypes.S K)).

(** The two checks above, for every integer up to [K]. *)
Definition limits_checked (K : nat) : bool :=
  forallb exact_int (upto K) && forallb limit_shape (tl (upto K)).

Lemma limits_1000 : limits_checked 1000 = true.
Proof. vm_compute. reflexivity. Qed.

Lemma upto_In (K : nat) (n : Z) : 0 <= n <= Z.of_nat K -> In n (upto K).
Proof.
  intro H. unfold upto. apply in_map_iff. exists (Z.to_nat n).
  split; [lia|]. apply in_seq. lia.
Qed.

Lemma digits2_bound (m : positive) : Z.pos m < 2 ^ Z.pos (digits2_pos m).
Proof.
  induction m as [m IH|m IH|]; cbn [digits2_pos].
  - rewrite Pos2Z.inj_succ, Z.pow_succ_r by lia. lia.
  - rewrite Pos2Z.inj_succ, Z.pow_succ_r by lia. lia.
  - reflexivity.
Qed.

Lemma valid_mantissa (s : bool) (m : positive) (e : Z) :
  valid_binary (S754_finite s m e) = true -> Z.pos m < 2 ^ 53.
Proof.
  intro H. cbn in H. unfold bounded, canonical_mantissa, fexp in H.
  apply andb_true_iff in H as [H _]. apply Z.eqb_eq in H.
  pose proof (digits2_bound m) as B.
  assert (Z.pos (digits2_pos m) <= 53) by (unfold FloatOps.prec in H; lia).
  apply (Z.lt_le_trans _ _ _ B). apply Z.pow_le_mono_r; lia.
Qed.

Lemma round_mag_le (m : positive) (e eb k mb : Z) :
  eb < 0 -> mb = k * 2 ^ (- eb) -> 2 ^ 52 <= mb -> Z.pos m < 2 ^ 53 ->
  e < eb \/ (e = eb /\ Z.pos m <= mb) ->
  0 <= Double.SF_round_mag m e <= k.
Proof.
  intros Heb Hmb Hnorm Hm Hcmp. unfold Double.SF_round_mag.
  assert (Hp : 0 < - e) by lia.
  rewrite Z.shiftr_div_pow2, Z.shiftl_mul_pow2 by lia. rewrite Z.mul_1_l.
  assert (P1 : 0 < 2 ^ (- e - 1)) by (apply Z.pow_pos_nonneg; lia).
  assert (P2 : 2 ^ (- e) = 2 * 2 ^ (- e - 1)).
  { replace (- e) with (Z.succ (- e - 1)) at 1 by lia.
    apply Z.pow_succ_r. lia. }
  assert (Q1 : 0 < 2 ^ (- eb)) by (apply Z.pow_pos_nonneg; lia).
  assert (Hk : 0 < k) by nia.
  split.
  - apply Z.div_pos; lia.
  - apply Z.lt_succ_r. apply Z.div_lt_upper_bound; [lia|].
    assert (Z.pos m <= k * 2 ^ (- e)).
    { destruct Hcmp as [Hlt | [-> Hle]]; [|lia].
      assert (2 ^ (- eb + 1) <= 2 ^ (- e)) by (apply Z.pow_le_mono_r; lia).
      rewrite Z.pow_add_r in H by lia. change (2 ^ 1) with 2 in H.
      change (2 ^ 53) with (2 * 2 ^ 52) in Hm. nia. }
    nia.
Qed.

Lemma of_int_neg (k : Z) :
  0 < k -> Double.of_int (- k) = PrimFloat.opp (Double.of_int k).
Proof.
  intro Hk. unfold Double.of_int.
  destruct (Z.ltb_spec (- k) 0); [|lia].
  destruct (Z.ltb_spec k 0); [lia|].
  rewrite Z.opp_involutive. reflexivity.
Qed.

Lemma rounded_angle_bounded (k : Z) (a : float) :
  limit_shape k = true ->
  (forall n : Z, 0 <= n <= k -> exact_int n = true) ->
  PrimFloat.leb (Double.of_int (- k)) a = true ->
  PrimFloat.leb a (Double.of_int k) = true ->
  - k <= Double.to_int (Double.round a) <= k.
Proof.
  intros Hshape Hint Hlo Hhi.
  unfold limit_shape in Hshape.
  destruct (Prim2SF (Double.of_int k)) as [| | |[|] mb eb] eqn:Ek;
    try discriminate.
  apply andb_true_iff in Hshape as [Hshape Hnorm].
  apply andb_true_iff in Hshape as [Heb Hmb].
  apply Z.ltb_lt in Heb. apply Z.eqb_eq in Hmb. apply Z.leb_le in Hnorm.
  assert (Q1 : 0 < 2 ^ (- eb)) by (apply Z.pow_pos_nonneg; lia).
  assert (Hk : 0 < k) by nia.
  rewrite (of_int_neg Hk) in Hlo.
  rewrite leb_spec in Hlo, Hhi. rewrite opp_spec, Ek in Hlo. rewrite Ek in Hhi.
  pose proof (Prim2SF_valid a) as Hv.
  unfold Double.round.
  destruct (Prim2SF a) as [s|s| |s m e] eqn:Ea.
  - unfold Double.to_int. rewrite Ea. cbn. lia.
  - destruct s; cbn in Hlo, Hhi; discriminate.
  - discriminate.
  - pose proof (valid_mantissa _ _ _ Hv) as Hm.
    assert (Hcmp : e < eb \/ (e = eb /\ Z.pos m <= Z.pos mb)).
    { unfold SFleb in Hlo, Hhi. cbn in Hlo, Hhi.
      change (PosDef.Pos.compare_cont Eq mb m) with (Pos.compare mb m) in Hlo.
      change (PosDef.Pos.compare_cont Eq m mb) with (Pos.compare m mb) in Hhi.
      destruct s.
      - destruct (Z.compare_spec eb e); try discriminate; [|lia].
        destruct (Pos.compare_spec mb m); try discriminate; lia.
      - destruct (Z.compare_spec e eb); try discriminate; [|lia].
        destruct (Pos.compare_spec m mb); try discriminate; lia. }
    pose proof (@round_mag_le m e eb k (Z.pos mb) Heb Hmb Hnorm Hm Hcmp) as Hn.
    destruct (Z.leb_spec 0 e); [lia|].
    specialize (Hint _ Hn). unfold exact_int in Hint.
    apply andb_true_iff in Hint as [Hpos Hneg].
    apply Z.eqb_eq in Hpos, Hneg. cbn zeta.
    destruct s; [rewrite Hneg | rewrite Hpos]; lia.
Qed.

Lemma limit_checked (k : Z) :
  1 <= k <= 1000 ->
  limit_shape k = true /\
  (forall n : Z, 0 <= n <= k -> exact_int n = true).
Proof.
  intro Hk. pose proof limits_1000 as H. unfold limits_checked in H.
  apply andb_true_iff in H as [Hints Hshapes].
  split.
  - apply (proj1 (forallb_forall _ _) Hshapes).
    change (tl (upto 1000)) with (map Z.of_nat (seq 1 1000)).
    apply in_map_iff. exists (Z.to_nat k). split; [lia|].
    apply in_seq. lia.
  - intros n Hn. apply (proj1 (forallb_forall _ _) Hints).
    apply upto_In. lia.
Qed.

Lemma limits_ordered (k : Z) :
  limit_shape k = true ->
  PrimFloat.leb (Double.of_int (- k)) (Double.of_int k) = true.
Proof.
  intro Hshape. pose proof Hshape as Hs. unfold limit_shape in Hs.
  destruct (Prim2SF (Double.of_int k)) as [| | |[|] mb eb] eqn:Ek;
    try discriminate.
  apply andb_true_iff in Hs as [Hs Hnorm].
  apply andb_true_iff in Hs as [Heb Hmb].
  apply Z.ltb_lt in Heb. apply Z.eqb_eq in Hmb. apply Z.leb_le in Hnorm.
  assert (Q1 : 0 < 2 ^ (- eb)) by (apply Z.pow_pos_nonneg; lia).
  assert (Hk : 0 < k) by nia.
  rewrite (of_int_neg Hk), leb_spec, opp_spec, Ek. reflexivity.
Qed.

Section WithCollaborators.
Context {F S D : Type}.
Context {filter : MovingAverageFilter float F}.
Context {stanley : StanleyController float S}.
Context {detector : HoughTransformLaneDetector float D}.

Local Abbreviation LKS := (@LaneKeepingSystem float F S D).

Lemma run_body_angle (k : Z) (queue : list Image) (s : LKS) :
  1 <= k <= 1000 ->
  Forall (fun m => - k <= angle m <= k) (snd (run_body k queue s)).
Proof.
  intro Hk. destruct (@limit_checked k Hk) as [Hshape Hints].
  destruct (Mat_empty (mFrame (spinOnce queue s))) eqn:E.
  - unfold run_body. rewrite E. constructor.
  - rewrite (run_body_active k queue s E). cbn [snd drive].
    constructor; [|constructor]. cbn [angle].
    match goal with
    | |- context [steeringAngle k ?raw] =>
        pose proof (steeringAngle_within
                      (laws := DoubleFacts.double_order_laws) k raw
                      (@limits_ordered k Hshape)) as W
    end.
    unfold within in W. apply andb_true_iff in W as [Wlo Whi].
    exact (@rounded_angle_bounded k _ Hshape Hints Wlo Whi).
Qed.

(** X12. At [double], for a steering limit from 1 to 1000: every message the
    loop publishes carries an angle from minus the limit to the limit,
    whatever the detector, the filter and the Stanley controller do and
    return, a NaN or an infinity included. *)
Theorem published_angle_within_limit (k : Z) (queues : list (list Image))
    (s : LKS) :
  1 <= k <= 1000 ->
  Forall (fun m => - k <= angle m <= k) (snd (run k queues s)).
Proof.
  intro Hk. revert s.
  induction queues as [|queue rest IH]; intro s; cbn [run].
  - constructor.
  - pose proof (@run_body_angle k queue s Hk) as H1.
    destruct (run_body k queue s) as [s1 out1].
    specialize (IH s1). destruct (run k rest s1) as [s2 out2].
    cbn [snd] in *. apply Forall_app. split; assumption.
Qed.

End WithCollaborators.

End DoubleAngle.

(** At [double], limit 50: three turns on a stored frame with a steering
    law that answers minus infinity. *)
Lemma published_angle_within_limit_witness :
  Forall (fun m => - 50 <= angle m <= 50)
    (snd (run 50 [[]; []; []]
            (Scenario.car (SmoothingFilter.new 10) 200 440 neg_infinity
               10%float 50%float 3%float 5%float 1%float 2%float
               (Scenario.frame 640 480)))).
Proof.
  apply (DoubleAngle.published_angle_within_limit (k := 50) [[]; []; []]
           (Scenario.car (SmoothingFilter.new 10) 200 440 neg_infinity
              10%float 50%float 3%float 5%float 1%float 2%float
              (Scenario.frame 640 480))).
  lia.
Defined.

(* ================================================================= *)
(** ** The speed over a run of the loop *)

Section RunSpeed.
Context {PREC : Type} {ops : Precision PREC}.
Context {F S D : Type}.
Context {filter : MovingAverageFilter PREC F}.
Context {stanley : StanleyController PREC S}.
Context {detector : HoughTransformLaneDetector PREC D}.
Variable kXycarSteeringAangleLimit : Z.

Local Abbreviation LKS := (@LaneKeepingSystem PREC F S D).
Local Abbreviation k := kXycarSteeringAangleLimit.

(** Two controllers with the same speed and the same speed parameters. *)
Definition sameSpeedState (s s' : LKS) : Prop :=
  mXycarSpeed s' = mXycarSpeed s /\ sameSpeedParams s s'.

Lemma sameSpeedState_refl (s : LKS) : sameSpeedState s s.
Proof. repeat split. Qed.

Lemma sameSpeedState_trans (s1 s2 s3 : LKS) :
  sameSpeedState s1 s2 -> sameSpeedState s2 s3 -> sameSpeedState s1 s3.
Proof.
  unfold sameSpeedState, sameSpeedParams.
  intros (?&?&?&?&?&?) (?&?&?&?&?&?). repeat split; congruence.
Qed.

Lemma sameSpeedState_speedControl (a : PREC) (s s' : LKS) :
  sameSpeedState s s' -> sameSpeedState (speedControl a s) (speedControl a s').
Proof.
  intros [Hv Hp]. rewrite !speedControl_assigns.
  split.
  - cbn [mXycarSpeed set_mXycarSpeed]. apply nextSpeed_ext; assumption.
  - unfold sameSpeedParams in *. cbn. exact Hp.
Qed.

Lemma sameSpeedState_speedControls (angles : list PREC) (s s' : LKS) :
  sameSpeedState s s' ->
  sameSpeedState (speedControls angles s) (speedControls angles s').
Proof.
  unfold speedControls. revert s s'.
  induction angles as [|a angles IH]; intros s s' H; cbn [fold_left].
  - exact H.
  - apply IH, sameSpeedState_speedControl, H.
Qed.

(** What a turn does to the speed: nothing, or one call of
    [speedControl] with the angle whose rounding it publishes. *)
Lemma run_body_speed (queue : list Image) (s : LKS) :
  exists angles : list PREC,
    (List.length angles <= 1)%nat /\
    sameSpeedState (speedControls angles s) (fst (run_body k queue s)) /\
    map angle (snd (run_body k queue s))
    = map (fun a => prec_to_int (prec_round a)) angles.
Proof.
  destruct (Mat_empty (mFrame (spinOnce queue s))) eqn:E.
  - exists []. unfold run_body. rewrite E. cbn [fst snd map List.length].
    split; [lia|]. split; [|reflexivity].
    exact (spinOnce_speed queue s).
  - rewrite (run_body_active k queue s E). cbn [fst snd].
    match goal with
    | |- context [speedControl ?a ?t] => exists [a]
    end.
    split; [cbn; lia|]. split; [|reflexivity].
    apply sameSpeedState_trans
      with (s2 := speedControl
                    (steeringAngle k
                       (stanley_getResult
                          (mStanley
                             (steer (snd (perceive (spinOnce queue s)))))))
                    (steer (snd (perceive (spinOnce queue s))))).
    + apply sameSpeedState_speedControl. exact (before_speedControl queue s).
    + apply debug_speed.
Qed.

(** X13. Over any run of the loop the speed changes through
    [speedControl] only, once for each message published: the speed at the
    end is the speed after the calls of [speedControl] for a list of
    angles, one for each message, whose roundings are the angles of the
    messages in order; the speed parameters are never written. *)
Theorem run_speed_by_speedControl (queues : list (list Image)) (s : LKS) :
  exists angles : list PREC,
    map angle (snd (run k queues s))
    = map (fun a => prec_to_int (prec_round a)) angles /\
    mXycarSpeed (fst (run k queues s))
    = mXycarSpeed (speedControls angles s) /\
    sameSpeedParams s (fst (run k queues s)).
Proof.
  assert (G : forall s : LKS, exists angles : list PREC,
             map angle (snd (run k queues s))
             = map (fun a => prec_to_int (prec_round a)) angles /\
             sameSpeedState (speedControls angles s) (fst (run k queues s))).
  { induction queues as [|queue rest IH]; intro t; cbn [run].
    - exists []. split; [reflexivity | apply sameSpeedState_refl].
    - destruct (run_body_speed queue t) as (a1 & _ & H1 & M1).
      destruct (run_body k queue t) as [s1 out1]. cbn [fst snd] in H1, M1.
      destruct (IH s1) as (a2 & M2 & H2).
      destruct (run k rest s1) as [s2 out2]. cbn [fst snd] in *.
      exists (a1 ++ a2). split.
      + rewrite !map_app, M1, M2. reflexivity.
      + unfold speedControls. rewrite fold_left_app.
        apply sameSpeedState_trans with (s2 := speedControls a2 s1);
          [|exact H2].
        apply sameSpeedState_speedControls, H1. }
  destruct (G s) as (angles & M & Hv & Hp).
  exists angles. split; [exact M|]. split; [exact Hv|].
  assert (P : forall (l : list PREC) (t : LKS),
             sameSpeedParams t (speedControls l t)).
  { unfold speedControls. induction l as [|a l IHl]; intro t; cbn [fold_left].
    - repeat split.
    - specialize (IHl (speedControl a t)).
      rewrite speedControl_assigns in *.
      unfold sameSpeedParams in *. cbn in IHl. exact IHl. }
  specialize (P angles s).
  unfold sameSpeedParams in *.
  destruct P as (?&?&?&?&?), Hp as (?&?&?&?&?). repeat split; congruence.
Qed.

End RunSpeed.
